(** * module-concat: the traversal / rewrite / streaming engine

    A shallow embedding of [lib/moduleConcatStream.js].  JavaScript strings
    are sequences of UTF-16 code units; the regular expressions of the source
    are kept as syntax and run by a backtracking matcher that follows the
    continuation semantics of ECMA-262; the Readable stream object is a record
    that every method takes and returns. *)

From Stdlib Require Import List NArith ZArith Bool Arith Lia.
From Stdlib Require String Ascii DecimalString.
Import ListNotations.
Import String.StringSyntax.
Delimit Scope string_scope with string.

Set Implicit Arguments.

(** ** JavaScript strings *)

Module JsString.

(** A code unit, as a number, and a string, as the sequence of its code
    units. *)
Definition char := N.
Definition jsstring := list char.

(** An ASCII literal as a JavaScript string. *)
Definition str (s : String.string) : jsstring :=
  map Ascii.N_of_ascii (String.list_ascii_of_string s).
Arguments str s%_string.

Definition LF : char := 10%N.
Definition CR : char := 13%N.
Definition DQUOTE : char := 34%N.
Definition DOLLAR : char := 36%N.
Definition AMP : char := 38%N.
Definition SQUOTE : char := 39%N.
Definition BACKSLASH : char := 92%N.
Definition BACKTICK : char := 96%N.

Fixpoint jseqb (a b : jsstring) : bool :=
  match a, b with
  | [], [] => true
  | x :: a', y :: b' => N.eqb x y && jseqb a' b'
  | _, _ => false
  end.

(** [a] is a prefix of [b]; the remainder of [b] when it is. *)
Fixpoint strip_prefix (a b : jsstring) : option jsstring :=
  match a with
  | [] => Some b
  | x :: a' =>
      match b with
      | y :: b' => if N.eqb x y then strip_prefix a' b' else None
      | [] => None
      end
  end.

(** [Array.prototype.indexOf] on an array of strings: the first index whose
    element is strictly equal, [-1] when there is none. *)
Fixpoint indexOf_from (i : Z) (x : jsstring) (l : list jsstring) : Z :=
  match l with
  | [] => (-1)%Z
  | y :: l' => if jseqb y x then i else indexOf_from (i + 1)%Z x l'
  end.

Definition indexOf (x : jsstring) (l : list jsstring) : Z := indexOf_from 0%Z x l.

(** Number-to-string conversion of an integer, as [+] does to an index. *)
Definition Z_to_jsstring (z : Z) : jsstring :=
  str (DecimalString.NilZero.string_of_int (Z.to_int z)).

(** [GetSubstitution] of ECMA-262 for a pattern without capture groups: in a
    replacement string, [$$] is a dollar, [$&] the matched text, [$`] the text
    before the match and [$'] the text after it; a dollar followed by anything
    else (a digit included, as there is no group to refer to) stands for
    itself. *)
Fixpoint GetSubstitution (matched before after tmpl : jsstring) : jsstring :=
  match tmpl with
  | [] => []
  | c :: t =>
      if N.eqb c DOLLAR then
        match t with
        | [] => [c]
        | d :: t' =>
            if N.eqb d DOLLAR then DOLLAR :: GetSubstitution matched before after t'
            else if N.eqb d AMP then matched ++ GetSubstitution matched before after t'
            else if N.eqb d BACKTICK then before ++ GetSubstitution matched before after t'
            else if N.eqb d SQUOTE then after ++ GetSubstitution matched before after t'
            else c :: GetSubstitution matched before after t
        end
      else c :: GetSubstitution matched before after t
  end.

(** [String.prototype.replace] with a string pattern: only the first
    occurrence is replaced. *)
Fixpoint replace_first_from (before_rev : jsstring) (pat tmpl s : jsstring) : jsstring :=
  match strip_prefix pat s with
  | Some after =>
      rev before_rev ++ GetSubstitution pat (rev before_rev) after tmpl ++ after
  | None =>
      match s with
      | [] => rev before_rev
      | c :: s' => replace_first_from (c :: before_rev) pat tmpl s'
      end
  end.

Definition replace_first (pat tmpl s : jsstring) : jsstring :=
  replace_first_from [] pat tmpl s.

End JsString.
Import JsString.

(** ** Regular expressions *)

Module RegExp.

(** The fragment of the pattern language the source uses.  No capture group of
    the source stands under a quantifier, so the reset of captures at each
    iteration of a quantifier has nothing to reset. *)
Inductive regex : Type :=
| Empty
| Char (p : char -> bool)
| AssertStart
| Seq (r1 r2 : regex)
| Alt (r1 r2 : regex)
| Star (r : regex)
| Opt (r : regex)
| Group (n : nat) (r : regex)
| Backref (n : nat)
| NegLookahead (r : regex).

Record MatchState := mkState {
  endIndex : nat;
  rest : jsstring;
  captures : list (nat * jsstring)
}.

Definition Continuation := MatchState -> option MatchState.

Fixpoint capture (n : nat) (caps : list (nat * jsstring)) : option jsstring :=
  match caps with
  | [] => None
  | (k, v) :: caps' => if Nat.eqb k n then Some v else capture n caps'
  end.

Definition progress (x y : MatchState) : bool := negb (Nat.eqb (endIndex y) (endIndex x)).

(** [RepeatMatcher] for a greedy star over the matcher [m]: one more
    iteration is tried first, and one that consumes nothing is refused.  Each
    iteration consumes at least one code unit, so the loop is bounded by the
    input left; [fuel] is that bound. *)
Fixpoint repeat_matcher (m : MatchState -> Continuation -> option MatchState)
    (c : Continuation) (fuel : nat) (x : MatchState) : option MatchState :=
  match fuel with
  | O => c x
  | S fuel' =>
      match m x (fun y => if progress x y then repeat_matcher m c fuel' y else None) with
      | Some z => Some z
      | None => c x
      end
  end.

(** The matcher of a pattern: from state [x], succeed with what the
    continuation [c] returns, trying the alternatives in priority order. *)
Fixpoint matcher (r : regex) (x : MatchState) (c : Continuation) : option MatchState :=
  match r with
  | Empty => c x
  | Char p =>
      match rest x with
      | ch :: tl => if p ch then c (mkState (S (endIndex x)) tl (captures x)) else None
      | [] => None
      end
  | AssertStart => if Nat.eqb (endIndex x) 0 then c x else None
  | Seq r1 r2 => matcher r1 x (fun y => matcher r2 y c)
  | Alt r1 r2 =>
      match matcher r1 x c with
      | Some z => Some z
      | None => matcher r2 x c
      end
  | Star r' => repeat_matcher (matcher r') c (S (length (rest x))) x
  | Opt r' =>
      match matcher r' x (fun y => if progress x y then c y else None) with
      | Some z => Some z
      | None => c x
      end
  | Group n r' =>
      matcher r' x (fun y =>
        c (mkState (endIndex y) (rest y)
             ((n, firstn (endIndex y - endIndex x) (rest x)) :: captures y)))
  | Backref n =>
      match capture n (captures x) with
      | None => c x
      | Some t =>
          match strip_prefix t (rest x) with
          | Some tl => c (mkState (endIndex x + length t) tl (captures x))
          | None => None
          end
      end
  | NegLookahead r' =>
      match matcher r' x Some with
      | Some _ => None
      | None => c x
      end
  end.

Definition lit (s : jsstring) : regex :=
  fold_right (fun ch r => Seq (Char (N.eqb ch)) r) Empty s.

Definition one_of (l : list char) : regex := Char (fun ch => existsb (N.eqb ch) l).
Definition none_of (l : list char) : regex := Char (fun ch => negb (existsb (N.eqb ch) l)).

(** [\s]: WhiteSpace and LineTerminator code units. *)
Definition is_space (ch : char) : bool :=
  existsb (N.eqb ch) [9; 10; 11; 12; 13; 32; 160; 5760; 8232; 8233; 8239; 8287; 12288; 65279]%N
  || (N.leb 8192 ch && N.leb ch 8202).

(** [.]: anything but a LineTerminator. *)
Definition is_line_terminator (ch : char) : bool :=
  existsb (N.eqb ch) [10; 13; 8232; 8233]%N.

Definition space : regex := Char is_space.
Definition dot : regex := Char (fun ch => negb (is_line_terminator ch)).

(** One successful match: where it starts, its text, its groups. *)
Record Match := mkMatch {
  m_index : nat;
  m_text : jsstring;
  m_groups : list (nat * jsstring)
}.

Definition group (n : nat) (m : Match) : jsstring :=
  match capture n (m_groups m) with Some t => t | None => [] end.

(** [RegExpBuiltinExec]: the first index at or after [i] at which the pattern
    matches; [s] is the input from index [i] on. *)
Fixpoint exec_from (r : regex) (i : nat) (s : jsstring) : option Match :=
  match matcher r (mkState i s []) Some with
  | Some y => Some (mkMatch i (firstn (endIndex y - i) s) (captures y))
  | None =>
      match s with
      | [] => None
      | _ :: tl => exec_from r (S i) tl
      end
  end.

Definition exec (r : regex) (s : jsstring) : option Match := exec_from r 0 s.

(** All the matches of a global pattern, as the loop of
    [RegExp.prototype[Symbol.replace]] collects them: after an empty match the
    search resumes one code unit further. *)
Fixpoint match_all (fuel : nat) (r : regex) (i : nat) (s : jsstring) : list Match :=
  match fuel with
  | O => []
  | S fuel' =>
      match exec_from r i s with
      | None => []
      | Some m =>
          let s' := skipn (m_index m - i) s in
          match length (m_text m) with
          | O =>
              match s' with
              | [] => [m]
              | _ :: tl => m :: match_all fuel' r (S (m_index m)) tl
              end
          | S _ =>
              m :: match_all fuel' r (m_index m + length (m_text m))
                     (skipn (length (m_text m)) s')
          end
      end
  end.

Definition matches (r : regex) (s : jsstring) : list Match :=
  match_all (S (length s)) r 0 s.

(** The result string: the text between the matches, and each replacement. *)
Fixpoint assemble (pos : nat) (s : jsstring) (reps : list (Match * jsstring)) : jsstring :=
  match reps with
  | [] => s
  | (m, rep) :: reps' =>
      firstn (m_index m - pos) s ++ rep ++
      assemble (m_index m + length (m_text m))
        (skipn (m_index m - pos + length (m_text m)) s) reps'
  end.

(** [s.replace(r, tmpl)] for a global pattern [r] and a replacement string. *)
Definition replace_str (r : regex) (tmpl s : jsstring) : jsstring :=
  assemble 0 s
    (map (fun m =>
            (m, GetSubstitution (m_text m) (firstn (m_index m) s)
                  (skipn (m_index m + length (m_text m)) s) tmpl))
         (matches r s)).

(** [s.replace(r, f)] for a global pattern and a replacement function that
    reads and updates an object of type [St]: the function is called once per
    match, in order, and what it returns is inserted as it is. *)
Fixpoint call_replacer (St : Type) (f : St -> Match -> St * jsstring) (st : St)
    (ms : list Match) : St * list (Match * jsstring) :=
  match ms with
  | [] => (st, [])
  | m :: ms' =>
      let (st1, rep) := f st m in
      let (st2, reps) := call_replacer f st1 ms' in
      (st2, (m, rep) :: reps)
  end.

Definition replace_fn (St : Type) (r : regex) (f : St -> Match -> St * jsstring)
    (st : St) (s : jsstring) : St * jsstring :=
  let (st', reps) := call_replacer f st (matches r s) in
  (st', assemble 0 s reps).

End RegExp.
Import RegExp.

(** ** The patterns of the source *)

(** [/(?:\r\n?|\n)\s*\/\/.*/g] *)
Definition commentRegex : regex :=
  Seq (Alt (Seq (Char (N.eqb CR)) (Opt (Char (N.eqb LF)))) (Char (N.eqb LF)))
    (Seq (Star space) (Seq (lit (str "//")) (Star dot))).

(** The call-site pattern [requireRegex] of [_addFile]: the word require,
    blanks, an opening parenthesis, blanks, a quote (group 1: a double quote
    or an apostrophe), the module path (group 2: any number of code units that
    are neither the quote of group 1 nor a backslash, or of doubled
    backslashes), the quote of group 1 again, blanks, a closing parenthesis. *)
Definition requireRegex : regex :=
  Seq (lit (str "require"))
    (Seq (Star space)
      (Seq (lit (str "("))
        (Seq (Star space)
          (Seq (Group 1 (one_of [DQUOTE; SQUOTE]))
            (Seq (Group 2
                    (Star (Alt (Seq (NegLookahead (Backref 1)) (none_of [BACKSLASH]))
                               (lit [BACKSLASH; BACKSLASH]))))
              (Seq (Backref 1)
                (Seq (Star space) (lit (str ")"))))))))).

(** [/__dirname/g] and [/__filename/g] *)
Definition dirnameRegex : regex := lit (str "__dirname").
Definition filenameRegex : regex := lit (str "__filename").

(** [/^\.?\.?\//] *)
Definition pathPrefixRegex : regex :=
  Seq AssertStart
    (Seq (Opt (lit (str "."))) (Seq (Opt (lit (str "."))) (lit (str "/")))).

(** [/\$\{id\}/g] and [/\$\{path\}/g] *)
Definition idRegex : regex := lit (str "${id}").
Definition pathRegex : regex := lit (str "${path}").

(** ** The collaborators of the stream *)

(** The options [resolve.sync] is called with.  [packageFilter] tells whether
    the filter that makes the [browser] field of a package the [main] one is
    passed along. *)
Record ResolveOpts := mkResolveOpts {
  basedir : jsstring;
  extensions : list jsstring;
  packageFilter : bool
}.

(** What the module takes from outside: the four templates it loads from its
    own directory ([header.js], [footer.js], [fileHeader.js],
    [fileFooter.js]), the file system, the [resolve] package, Node's [path]
    module, [JSON.stringify] and [String.prototype.toLowerCase].  A read or a
    resolution that throws is [None]. *)
Record World := mkWorld {
  HEADER : jsstring;
  FOOTER : jsstring;
  FILE_HEADER : jsstring;
  FILE_FOOTER : jsstring;
  readFileSync : jsstring -> option jsstring;
  isCore : jsstring -> bool;
  resolve_sync : jsstring -> ResolveOpts -> option jsstring;
  path_resolve : jsstring -> jsstring;
  path_dirname : jsstring -> jsstring;
  path_extname : jsstring -> jsstring;
  path_relative : jsstring -> jsstring -> jsstring;
  JSON_stringify : jsstring -> jsstring;
  toLowerCase : jsstring -> jsstring
}.

(** The [options] object; an absent property is [None] or [false]. *)
Record Options := mkOptions {
  outputPath : option jsstring;
  excludeFiles : option (list jsstring);
  excludeNodeModules : bool;
  browser : bool
}.

Definition no_options : Options := mkOptions None None false false.

(** ** The stream object *)

(** The fields of a [ModuleConcatStream], and of the [Readable] it extends what
    the class can observe: the chunks pushed so far (oldest first), whether
    the end marker was pushed, and the error notifications handed to
    [process.nextTick] (each names the file whose read threw). *)
Record Stream := mkStream {
  _options : Options;
  _files : list jsstring;
  _fileIndex : nat;
  _addonsExcluded : list jsstring;
  _headerWritten : bool;
  pushed : list jsstring;
  ended : bool;
  errorTicks : list jsstring
}.

Definition set_files (l : list jsstring) (s : Stream) : Stream :=
  mkStream (_options s) l (_fileIndex s) (_addonsExcluded s) (_headerWritten s)
    (pushed s) (ended s) (errorTicks s).
Definition set_fileIndex (i : nat) (s : Stream) : Stream :=
  mkStream (_options s) (_files s) i (_addonsExcluded s) (_headerWritten s)
    (pushed s) (ended s) (errorTicks s).
Definition set_addonsExcluded (l : list jsstring) (s : Stream) : Stream :=
  mkStream (_options s) (_files s) (_fileIndex s) l (_headerWritten s)
    (pushed s) (ended s) (errorTicks s).
Definition set_headerWritten (b : bool) (s : Stream) : Stream :=
  mkStream (_options s) (_files s) (_fileIndex s) (_addonsExcluded s) b
    (pushed s) (ended s) (errorTicks s).

(** The consumer: its answer to the push number [k] (counting from 0), [true]
    for "ready for more", [false] for backpressure. *)
Definition Consumer := nat -> bool.

(** [this.push(chunk)] *)
Definition push (ready : Consumer) (chunk : jsstring) (s : Stream) : Stream * bool :=
  (mkStream (_options s) (_files s) (_fileIndex s) (_addonsExcluded s) (_headerWritten s)
     (pushed s ++ [chunk]) (ended s) (errorTicks s),
   ready (length (pushed s))).

(** [this.push(null)] *)
Definition push_null (s : Stream) : Stream :=
  mkStream (_options s) (_files s) (_fileIndex s) (_addonsExcluded s) (_headerWritten s)
    (pushed s) true (errorTicks s).

(** [process.nextTick(() => this.emit("error", err))] *)
Definition nextTick_error (filePath : jsstring) (s : Stream) : Stream :=
  mkStream (_options s) (_files s) (_fileIndex s) (_addonsExcluded s) (_headerWritten s)
    (pushed s) (ended s) (errorTicks s ++ [filePath]).

Section ModuleConcatStream.

Variable w : World.

(** [constructor(entryModulePath, options)] *)
Definition constructor (entryModulePath : jsstring) (options : Options) : Stream :=
  let opts :=
    mkOptions (outputPath options)
      (match excludeFiles options with
       | Some l => Some (map (path_resolve w) l)
       | None => None
       end)
      (excludeNodeModules options) (browser options) in
  mkStream opts [entryModulePath] 0 [] false [] false [].

(** The text [__require(index,parentIndex)]. *)
Definition require_call (index parentIndex : Z) : jsstring :=
  str "__require(" ++ Z_to_jsstring index ++ str "," ++ Z_to_jsstring parentIndex ++ str ")".

(** The replacement function of the [requireRegex] pass of [_addFile]. *)
Definition on_require (filePath : jsstring) (s : Stream) (m : Match) : Stream * jsstring :=
  let match_ := m_text m in
  let modulePath := group 2 m in
  if isCore w modulePath && negb (browser (_options s)) then (s, match_)
  else
    let modulePath := replace_first [BACKSLASH; BACKSLASH] [BACKSLASH] modulePath in
    if excludeNodeModules (_options s)
       && match exec pathPrefixRegex modulePath with None => true | Some _ => false end
    then (s, match_)
    else
      let resolveOpts :=
        mkResolveOpts (path_dirname w filePath)
          [[]; str ".js"; str ".json"; str ".node"]
          (browser (_options s)) in
      match resolve_sync w modulePath resolveOpts with
      | None => (s, match_)
      | Some modulePath =>
          if isCore w modulePath then (s, match_)
          else if jseqb (toLowerCase w (path_extname w modulePath)) (str ".node") then
            (set_addonsExcluded (_addonsExcluded s ++ [modulePath]) s, match_)
          else
            let index := indexOf modulePath (_files s) in
            if (index <? 0)%Z then
              if match excludeFiles (_options s) with
                 | None => true
                 | Some excl => (indexOf modulePath excl <? 0)%Z
                 end
              then
                let s := set_files (_files s ++ [modulePath]) s in
                let index := (Z.of_nat (length (_files s)) - 1)%Z in
                let parentIndex := indexOf filePath (_files s) in
                (s, require_call index parentIndex)
              else (s, match_)
            else
              let parentIndex := indexOf filePath (_files s) in
              (s, require_call index parentIndex)
      end.

(** The [__dirname] and [__filename] pass of [_addFile]; an empty
    [outputPath] is falsy. *)
Definition replace_path_tokens (opts : Options) (filePath code : jsstring) : jsstring :=
  match outputPath opts with
  | Some ((_ :: _) as outputPath) =>
      if negb (browser opts) then
        replace_str filenameRegex
          (str "__getFilename(" ++
           JSON_stringify w (path_relative w (path_dirname w outputPath) filePath) ++ str ")")
          (replace_str dirnameRegex
             (str "__getDirname(" ++
              JSON_stringify w (path_relative w (path_dirname w outputPath) filePath) ++ str ")")
             code)
      else code
  | _ => code
  end.

(** A per-file template with its two placeholders filled in. *)
Definition fill_template (template : jsstring) (id : Z) (filePath : jsstring) : jsstring :=
  replace_str pathRegex filePath (replace_str idRegex (Z_to_jsstring id) template).

(** [_addFile(filePath)] *)
Definition _addFile (ready : Consumer) (filePath : jsstring) (s : Stream) : Stream * bool :=
  match readFileSync w filePath with
  | None => (nextTick_error filePath s, false)
  | Some code =>
      let s := set_fileIndex (S (_fileIndex s)) s in
      let code := replace_str commentRegex [] code in
      let (s, code) := replace_fn requireRegex (on_require filePath) s code in
      let code := replace_path_tokens (_options s) filePath code in
      push ready
        (fill_template (FILE_HEADER w) (indexOf filePath (_files s)) filePath ++
         (if jseqb (path_extname w filePath) (str ".json")
          then str "module.exports = " else []) ++
         code ++
         fill_template (FILE_FOOTER w) (indexOf filePath (_files s)) filePath)
        s
  end.

(** The [while] loop of [_continueProcessing].  The list can grow while the
    loop runs, so the loop takes fuel: [None] is fuel run out, [Some (s, true)]
    the loop left because the cursor reached the end of the list,
    [Some (s, false)] the method returned from inside the loop.  The test
    [_fileIndex < _files.length] and the read of [_files[_fileIndex]] are the
    one [nth_error]. *)
Fixpoint write_files (fuel : nat) (ready : Consumer) (s : Stream) : option (Stream * bool) :=
  match nth_error (_files s) (_fileIndex s) with
  | None => Some (s, true)
  | Some filePath =>
      match fuel with
      | O => None
      | S fuel' =>
          let (s', more) := _addFile ready filePath s in
          if more then write_files fuel' ready s' else Some (s', false)
      end
  end.

(** [_continueProcessing()] *)
Definition _continueProcessing (fuel : nat) (ready : Consumer) (s : Stream) : option Stream :=
  let (s, more) :=
    if negb (_headerWritten s)
    then push ready (HEADER w) (set_headerWritten true s)
    else (s, true) in
  if more then
    match write_files fuel ready s with
    | None => None
    | Some (s, true) => Some (push_null (fst (push ready (FOOTER w) s)))
    | Some (s, false) => Some s
    end
  else Some s.

(** [_read(size)] *)
Definition _read (fuel : nat) (ready : Consumer) (s : Stream) : option Stream :=
  _continueProcessing fuel ready s.

(** A demand signal of the consumer: [Readable] calls [_read], and no longer
    does once the end marker was pushed. *)
Definition demand (fuel : nat) (ready : Consumer) (s : Stream) : option Stream :=
  if ended s then Some s else _read fuel ready s.

(** [n] demand signals in a row. *)
Fixpoint demands (n : nat) (fuel : nat) (ready : Consumer) (s : Stream) : option Stream :=
  match n with
  | O => Some s
  | S n' =>
      match demand fuel ready s with
      | None => None
      | Some s' => demands n' fuel ready s'
      end
  end.

(** [getStats()]: the error it throws is [inl]. *)
Inductive Error := StatisticsNotYetAvailable.

Definition getStats (s : Stream) : Error + (list jsstring * list jsstring) :=
  if _fileIndex s <? length (_files s) then inl StatisticsNotYetAvailable
  else inr (_files s, _addonsExcluded s).

End ModuleConcatStream.

(** ** Vocabulary of the properties *)

(** The consumer that is always ready. *)
Definition always : Consumer := fun _ => true.

(** The next action of the stream, whatever the consumer answers: the header
    if it was not written, else the file under the cursor, else the footer
    and the end marker; nothing once the stream has ended. *)
Definition advance (w : World) (s : Stream) : Stream :=
  if ended s then s
  else if negb (_headerWritten s) then fst (push always (HEADER w) (set_headerWritten true s))
  else
    match nth_error (_files s) (_fileIndex s) with
    | Some filePath => fst (_addFile w always filePath s)
    | None => push_null (fst (push always (FOOTER w) s))
    end.

(** The chunk of the file of identity [id]: its header, its body, its footer. *)
Definition file_chunk (w : World) (id : nat) (filePath body : jsstring) : jsstring :=
  fill_template (FILE_HEADER w) (Z.of_nat id) filePath ++ body ++
  fill_template (FILE_FOOTER w) (Z.of_nat id) filePath.

(** The chunks of the files [paths], numbered from [id] on. *)
Fixpoint file_chunks (w : World) (id : nat) (paths bodies : list jsstring) : list jsstring :=
  match paths, bodies with
  | p :: paths', b :: bodies' => file_chunk w id p b :: file_chunks w (S id) paths' bodies'
  | _, _ => []
  end.

(** What the replacement function can do with a call site of the file
    [filePath], from the stream [s]: leave the text as it is (a core module, a
    name excluded as third-party, a failed resolution, an excluded file); note
    a native add-on and leave the text; refer to a file that is in the list;
    or append a new file and refer to it. *)
Inductive Outcome (filePath : jsstring) (s : Stream) (m : Match) : Stream -> jsstring -> Prop :=
| Unmodified : Outcome filePath s m s (m_text m)
| Native (p : jsstring) :
    Outcome filePath s m (set_addonsExcluded (_addonsExcluded s ++ [p]) s) (m_text m)
| Reused (p : jsstring) :
    In p (_files s) ->
    Outcome filePath s m s (require_call (indexOf p (_files s)) (indexOf filePath (_files s)))
| Registered (p : jsstring) :
    ~ In p (_files s) ->
    (forall excl, excludeFiles (_options s) = Some excl -> ~ In p excl) ->
    Outcome filePath s m (set_files (_files s ++ [p]) s)
      (require_call (Z.of_nat (length (_files s))) (indexOf filePath (_files s ++ [p]))).

(** The call site [m] of the file [filePath] gets as far as the resolver, and
    the resolver answers [p]: the name is not left alone as a core module nor
    as a third-party one, and [resolve.sync] returns [p] for it. *)
Definition resolves_to (w : World) (filePath : jsstring) (s : Stream) (m : Match)
    (p : jsstring) : Prop :=
  isCore w (group 2 m) && negb (browser (_options s)) = false /\
  excludeNodeModules (_options s)
  && match exec pathPrefixRegex (replace_first [BACKSLASH; BACKSLASH] [BACKSLASH] (group 2 m)) with
     | None => true
     | Some _ => false
     end = false /\
  resolve_sync w (replace_first [BACKSLASH; BACKSLASH] [BACKSLASH] (group 2 m))
    (mkResolveOpts (path_dirname w filePath) [[]; str ".js"; str ".json"; str ".node"]
       (browser (_options s))) = Some p.

(** [s'] has the fields of [s] that only the stream methods themselves
    write. *)
Definition frame (s s' : Stream) : Prop :=
  _fileIndex s' = _fileIndex s /\ _headerWritten s' = _headerWritten s /\
  pushed s' = pushed s /\ ended s' = ended s /\ errorTicks s' = errorTicks s.

(** From [s] to [s'] the options are the same and the two lists only grew at
    their ends, the file list without a duplicate and without an excluded
    file. *)
Definition grows (s s' : Stream) : Prop :=
  _options s' = _options s /\
  (exists l, _files s' = _files s ++ l /\
             (NoDup (_files s) -> NoDup (_files s')) /\
             (forall excl p, excludeFiles (_options s) = Some excl -> In p excl -> ~ In p l)) /\
  (exists l, _addonsExcluded s' = _addonsExcluded s ++ l).

(** The stream with its [excludeNodeModules] option set to [b]. *)
Definition with_excludeNodeModules (b : bool) (s : Stream) : Stream :=
  mkStream
    (mkOptions (outputPath (_options s)) (excludeFiles (_options s)) b (browser (_options s)))
    (_files s) (_fileIndex s) (_addonsExcluded s) (_headerWritten s)
    (pushed s) (ended s) (errorTicks s).

(** A greedy star over one character class, by recursion on the text: as
    many code units of the class as there are, one less when the continuation
    refuses, and so on. *)
Fixpoint greedy_chars (p : char -> bool) (c : Continuation) (i : nat) (s : jsstring)
    (caps : list (nat * jsstring)) : option MatchState :=
  match s with
  | ch :: tl =>
      if p ch then
        match greedy_chars p c (S i) tl caps with
        | Some z => Some z
        | None => c (mkState i s caps)
        end
      else c (mkState i s caps)
  | [] => c (mkState i [] caps)
  end.

(** The state [y] is at some place of the text [s], which starts at index
    [i]: its index and what it has left agree. *)
Definition within (i : nat) (s : jsstring) (y : MatchState) : Prop :=
  exists pre, s = pre ++ rest y /\ endIndex y = i + length pre.

(** What was pushed so far is the header if it was written, one chunk per
    file the cursor went over, in the order of the list and under the
    identity of its position, and the footer if the stream has ended; the list
    holds no path twice and the cursor is within it. *)
Definition laid_out (w : World) (s : Stream) : Prop :=
  NoDup (_files s) /\ _fileIndex s <= length (_files s) /\
  (_headerWritten s = false -> _fileIndex s = 0) /\
  (ended s = true -> _headerWritten s = true /\ _fileIndex s = length (_files s)) /\
  exists bodies,
    length bodies = _fileIndex s /\
    pushed s = (if _headerWritten s then [HEADER w] else []) ++
               file_chunks w 0 (firstn (_fileIndex s) (_files s)) bodies ++
               (if ended s then [FOOTER w] else []).

(** The text starts with [a]. *)
Definition starts_with (a s : jsstring) : bool :=
  match strip_prefix a s with Some _ => true | None => false end.

(** The name looks like a path of the file system: it begins with [./],
    [../] or [/]. *)
Definition looks_like_path (name : jsstring) : bool :=
  starts_with (str "./") name || starts_with (str "../") name || starts_with (str "/") name.

(** *** Line comments, in words

    A removable run starts with a line break (a carriage return, a line feed,
    or the two in a row), goes on with any blanks, further line breaks
    included, then two slashes, and ends before the next line terminator.
    [comment_run s] is what follows the run that starts [s], if one does. *)
Fixpoint skip_blanks (s : jsstring) : jsstring :=
  match s with
  | ch :: tl => if is_space ch then skip_blanks tl else s
  | [] => []
  end.

Fixpoint skip_to_line_end (s : jsstring) : jsstring :=
  match s with
  | ch :: tl => if is_line_terminator ch then s else skip_to_line_end tl
  | [] => []
  end.

Definition comment_run (s : jsstring) : option jsstring :=
  match s with
  | ch :: tl =>
      if N.eqb ch CR || N.eqb ch LF then
        match skip_blanks tl with
        | c1 :: c2 :: body =>
            if N.eqb c1 47%N && N.eqb c2 47%N then Some (skip_to_line_end body) else None
        | _ => None
        end
      else None
  | [] => None
  end.

(** The text with its removable runs taken out, left to right. *)
Fixpoint strip_runs (fuel : nat) (s : jsstring) : jsstring :=
  match fuel with
  | O => s
  | S fuel' =>
      match comment_run s with
      | Some after => strip_runs fuel' after
      | None =>
          match s with
          | [] => []
          | ch :: tl => ch :: strip_runs fuel' tl
          end
      end
  end.

Definition strip_line_comments (s : jsstring) : jsstring := strip_runs (S (length s)) s.


(** *** Where the files of the list come from *)

(** The path is a native add-on for [_addFile]: its extension, in lower case,
    is [.node]. *)
Definition native (w : World) (p : jsstring) : bool :=
  jseqb (toLowerCase w (path_extname w p)) (str ".node").

(** The path is an answer of the resolver. *)
Definition answered (w : World) (p : jsstring) : Prop :=
  exists name opts, resolve_sync w name opts = Some p.

(** From [s] to [s'] the options are the same; the file list grew at its end
    by answers of the resolver that are neither core modules, native add-ons
    nor excluded files; the add-on list grew at its end by answers of the
    resolver that are native add-ons and no core modules. *)
Definition registers (w : World) (s s' : Stream) : Prop :=
  _options s' = _options s /\
  (exists l, _files s' = _files s ++ l /\
     Forall (fun p => answered w p /\ isCore w p = false /\ native w p = false /\
                      forall excl, excludeFiles (_options s) = Some excl -> ~ In p excl) l) /\
  (exists a, _addonsExcluded s' = _addonsExcluded s ++ a /\
     Forall (fun p => answered w p /\ isCore w p = false /\ native w p = true) a).


(** *** A run as it goes *)

(** From [s] to [s'] nothing was taken back: the chunks pushed, the errors
    scheduled and the two lists grew at their ends, the cursor did not go
    back, the two flags stayed set if they were, the options are the same. *)
Definition extends (s s' : Stream) : Prop :=
  (exists chunks, pushed s' = pushed s ++ chunks) /\
  (exists errors, errorTicks s' = errorTicks s ++ errors) /\
  (exists l, _files s' = _files s ++ l) /\
  (exists a, _addonsExcluded s' = _addonsExcluded s ++ a) /\
  _fileIndex s <= _fileIndex s' /\
  (_headerWritten s = true -> _headerWritten s' = true) /\
  (ended s = true -> ended s' = true) /\
  _options s' = _options s.

(** The files below the cursor could be read; and either no error was
    scheduled, or the stream is held on a file that cannot be read, and every
    error scheduled is about that file. *)
Definition healthy (w : World) (s : Stream) : Prop :=
  (forall k p, k < _fileIndex s -> nth_error (_files s) k = Some p ->
               readFileSync w p <> None) /\
  (errorTicks s = [] \/
   (ended s = false /\ _headerWritten s = true /\
    exists p, nth_error (_files s) (_fileIndex s) = Some p /\
              readFileSync w p = None /\ Forall (eq p) (errorTicks s))).


(** *** A finite project *)

(** The file list holds no path twice, the cursor is within it, and each of
    its paths is the entry path or one of the paths [U] that is neither a core
    module nor a native add-on. *)
Definition within_project (w : World) (entry : jsstring) (U : list jsstring) (s : Stream) : Prop :=
  NoDup (_files s) /\ _fileIndex s <= length (_files s) /\
  forall p, In p (_files s) ->
            p = entry \/ (In p U /\ isCore w p = false /\ native w p = false).

(** What is left to do before the end: the header, the files from the cursor
    to a list as long as it can get, the footer. *)
Definition steps_left (U : list jsstring) (s : Stream) : nat :=
  if ended s then 0
  else (if _headerWritten s then 0 else 1) + (S (length U) - _fileIndex s) + 1.


(** *** Call sites *)

(** The text of a literal call: the word require, blanks, an opening
    parenthesis, blanks, the module path between two quotes [q], blanks, a
    closing parenthesis. *)
Definition call_site_text (ws1 ws2 : jsstring) (q : char) (path ws3 : jsstring) : jsstring :=
  str "require" ++ ws1 ++ str "(" ++ ws2 ++ [q] ++ path ++ [q] ++ ws3 ++ str ")".

(** A module path as [requireRegex] takes it: the quote [q] stands nowhere in
    it, and its backslashes come in pairs. *)
Fixpoint well_escaped (q : char) (s : jsstring) : bool :=
  match s with
  | [] => true
  | c :: t =>
      if N.eqb c BACKSLASH then
        match t with
        | d :: t' => N.eqb d BACKSLASH && well_escaped q t'
        | [] => false
        end
      else negb (N.eqb c q) && well_escaped q t
  end.

(** One step of the module path in [requireRegex]: a code unit that is neither
    the quote of group 1 nor a backslash, or a doubled backslash. *)
Definition path_unit : regex :=
  Alt (Seq (NegLookahead (Backref 1)) (none_of [BACKSLASH])) (lit [BACKSLASH; BACKSLASH]).

(** The text [tl] does not go on with a code unit of the class [p]. *)
Definition stops (p : char -> bool) (tl : jsstring) : Prop :=
  match tl with [] => True | ch :: _ => p ch = false end.

(** The string holds a doubled backslash. *)
Fixpoint doubled (s : jsstring) : bool :=
  match s with
  | c :: ((d :: _) as t) => (N.eqb c BACKSLASH && N.eqb d BACKSLASH) || doubled t
  | _ => false
  end.

(** ** Small projects to run the stream on *)

Module Fixture.

Fixpoint assoc (A : Type) (k : jsstring) (l : list (jsstring * A)) : option A :=
  match l with
  | [] => None
  | (k', v) :: l' => if jseqb k' k then Some v else assoc k l'
  end.

Fixpoint assoc2 (A : Type) (k1 k2 : jsstring) (l : list (jsstring * jsstring * A)) : option A :=
  match l with
  | [] => None
  | (k1', k2', v) :: l' => if jseqb k1' k1 && jseqb k2' k2 then Some v else assoc2 k1 k2 l'
  end.

(** The index after the last [ch] of [s], if there is one. *)
Fixpoint after_last (ch : char) (i : nat) (s : jsstring) : option nat :=
  match s with
  | [] => None
  | c :: tl =>
      match after_last ch (S i) tl with
      | Some j => Some j
      | None => if N.eqb c ch then Some (S i) else None
      end
  end.

(** [path.dirname] and [path.extname] on absolute POSIX paths that do not end
    with a slash. *)
Definition dirname (p : jsstring) : jsstring :=
  match after_last 47%N 0 p with
  | None => str "."
  | Some 1 => str "/"
  | Some j => firstn (j - 1) p
  end.

Definition basename (p : jsstring) : jsstring :=
  match after_last 47%N 0 p with
  | None => p
  | Some j => skipn j p
  end.

Definition extname (p : jsstring) : jsstring :=
  let b := basename p in
  match after_last 46%N 0 b with
  | None | Some 1 => []
  | Some j => skipn (j - 1) b
  end.

(** [JSON.stringify] on a string in which nothing needs an escape. *)
Definition stringify (s : jsstring) : jsstring := DQUOTE :: s ++ [DQUOTE].

(** [toLowerCase] on ASCII text. *)
Definition lower (s : jsstring) : jsstring :=
  map (fun ch => if N.leb 65%N ch && N.leb ch 90%N then (ch + 32)%N else ch) s.

(** A project: the files on disk with their text; what [resolve.sync] answers
    for a name asked from a directory; the core module names; what
    [path.relative] answers for the pairs that are asked.  The paths of a
    project are absolute and normalized, so that [path.resolve] leaves them as
    they are; the templates are short texts with the two placeholders. *)
Record Project := mkProject {
  sources : list (jsstring * jsstring);
  resolutions : list (jsstring * jsstring * jsstring);
  core : list jsstring;
  relatives : list (jsstring * jsstring * jsstring)
}.

Definition world_of (p : Project) : World :=
  mkWorld (str "HEAD;") (str "FOOT;") (str "<${id}:${path}>") (str "</${id}>")
    (fun f => assoc f (sources p))
    (fun name => existsb (jseqb name) (core p))
    (fun name opts => assoc2 (basedir opts) name (resolutions p))
    (fun f => f)
    dirname extname
    (fun from to => match assoc2 from to (relatives p) with Some r => r | None => to end)
    stringify lower.

(** Three modules: [a] requires [b], [c] and the core module [fs]; [b]
    requires [c] and [a]; [c] requires nothing. *)
Definition abc : Project :=
  mkProject
    [(str "/p/a.js", str "var b = require('./b'); require( './c' ); require('fs');");
     (str "/p/b.js", str "require('./c') + require('./a')");
     (str "/p/c.js", str "module.exports = 1;")]
    [(str "/p", str "./b", str "/p/b.js");
     (str "/p", str "./c", str "/p/c.js");
     (str "/p", str "./a", str "/p/a.js");
     (str "/p", str "fs", str "fs")]
    [str "fs"]
    [].

(** The stream of [abc] after one demand signal answered by a consumer that
    is always ready: the whole project went through. *)
Definition abc_done : Stream :=
  Eval vm_compute in
    match demands (world_of abc) 1 10 always
            (constructor (world_of abc) (str "/p/a.js") no_options) with
    | Some s => s
    | None => constructor (world_of abc) (str "/p/a.js") no_options
    end.

(** An entry file that is not on disk. *)
Definition missing : Project := mkProject [] [] [] [].


(** An entry file named by a relative path, that requires itself; the
    resolver answers with the absolute path of the same file. *)
Definition selfref : Project :=
  mkProject
    [(str "./a.js", str "require('./a')");
     (str "/p/a.js", str "require('./a')")]
    [(str ".", str "./a", str "/p/a.js");
     (str "/p", str "./a", str "/p/a.js")]
    []
    [].

(** [a] requires [b], and [b] is to be excluded. *)
Definition ab : Project :=
  mkProject
    [(str "/p/a.js", str "require('./b')");
     (str "/p/b.js", str "module.exports = 2;")]
    [(str "/p", str "./b", str "/p/b.js");
     (str "/p", str "./a", str "/p/a.js")]
    []
    [].

Definition exclude_b : Options := mkOptions None (Some [str "/p/b.js"]) false false.

(** The entry file requires itself, and is itself in the list of the files to
    exclude. *)
Definition exclude_entry : Options := mkOptions None (Some [str "/p/a.js"]) false false.

Definition loop : Project :=
  mkProject
    [(str "/p/a.js", str "require('./a')")]
    [(str "/p", str "./a", str "/p/a.js")]
    []
    [].



(** A file whose name holds a dollar sign and an ampersand; the bundle is to
    be written next to it.  Node's [path.relative] of the directory [/p] and
    of that file is the name of the file. *)
Definition dollar : Project :=
  mkProject
    [(str "/p/$&.js", str "__dirname + __filename")]
    []
    []
    [(str "/p", str "/p/$&.js", str "$&.js")].

Definition output_in_p : Options := mkOptions (Some (str "/p/out.js")) None false false.

Definition no_third_party : Options := mkOptions None None true false.

(** The first match of the call-site pattern in a text. *)
Definition call_site (code : jsstring) : Match :=
  match exec requireRegex code with
  | Some m => m
  | None => mkMatch 0 [] []
  end.


(** [a] requires the native add-on [x] twice, and [b]. *)
Definition with_addon : Project :=
  mkProject
    [(str "/p/a.js", str "require('./x.node'); require('./X'); require('./b')");
     (str "/p/b.js", str "module.exports = 2;")]
    [(str "/p", str "./x.node", str "/p/x.node");
     (str "/p", str "./X", str "/p/x.node");
     (str "/p", str "./b", str "/p/b.js")]
    []
    [].

Definition with_addon_done : Stream :=
  Eval vm_compute in
    match demands (world_of with_addon) 1 10 always
            (constructor (world_of with_addon) (str "/p/a.js") no_options) with
    | Some s => s
    | None => constructor (world_of with_addon) (str "/p/a.js") no_options
    end.


(** The stream of [missing] after one demand signal answered by a consumer
    that is always ready: the header went out and the read of the entry file
    failed. *)
Definition missing_failed : Stream :=
  Eval vm_compute in
    match demands (world_of missing) 1 10 always
            (constructor (world_of missing) (str "/p/a.js") no_options) with
    | Some s => s
    | None => constructor (world_of missing) (str "/p/a.js") no_options
    end.

End Fixture.

(** * Proofs *)

(** ** Strings and arrays *)

Lemma jseqb_eq (a b : jsstring) : jseqb a b = true <-> a = b.
Proof.
  revert b; induction a as [|x a IH]; intros [|y b]; simpl; split; intros H;
    try reflexivity; try discriminate.
  - apply andb_true_iff in H as [Hx Hab]. apply N.eqb_eq in Hx.
    apply IH in Hab. now subst.
  - injection H as -> ->. rewrite N.eqb_refl. simpl. now apply IH.
Qed.

Lemma jseqb_refl (a : jsstring) : jseqb a a = true.
Proof. now apply jseqb_eq. Qed.

Lemma jseqb_neq (a b : jsstring) : jseqb a b = false <-> a <> b.
Proof.
  split; intros H.
  - intros E. apply jseqb_eq in E. congruence.
  - destruct (jseqb a b) eqn:E; [|reflexivity]. apply jseqb_eq in E. contradiction.
Qed.

Lemma indexOf_from_absent (i : Z) (x : jsstring) (l : list jsstring) :
  ~ In x l -> indexOf_from i x l = (-1)%Z.
Proof.
  revert i; induction l as [|y l IH]; intros i H; simpl; [reflexivity|].
  destruct (jseqb y x) eqn:E.
  - apply jseqb_eq in E. subst. exfalso. apply H. now left.
  - apply IH. intros H'. apply H. now right.
Qed.

Lemma indexOf_from_present (i : Z) (x : jsstring) (l : list jsstring) :
  In x l ->
  exists k, indexOf_from i x l = (i + Z.of_nat k)%Z /\ nth_error l k = Some x /\
            ~ In x (firstn k l).
Proof.
  revert i; induction l as [|y l IH]; intros i H; simpl; [destruct H|].
  destruct (jseqb y x) eqn:E.
  - apply jseqb_eq in E. subst. exists 0. simpl. repeat split; [lia | tauto].
  - apply jseqb_neq in E. destruct H as [H|H]; [contradiction|].
    destruct (IH (i + 1)%Z H) as (k & Hk & Hn & Hf).
    exists (S k). simpl. repeat split; [lia | assumption |].
    intros [H'|H']; [contradiction | now apply Hf].
Qed.

Lemma indexOf_absent (x : jsstring) (l : list jsstring) :
  (indexOf x l <? 0)%Z = true <-> ~ In x l.
Proof.
  unfold indexOf. split; intros H.
  - intros Hin. destruct (indexOf_from_present 0 x l Hin) as (k & Hk & _).
    apply Z.ltb_lt in H. lia.
  - rewrite indexOf_from_absent by assumption. reflexivity.
Qed.

Lemma indexOf_present (x : jsstring) (l : list jsstring) :
  (indexOf x l <? 0)%Z = false <-> In x l.
Proof.
  split; intros H.
  - destruct (in_dec (list_eq_dec N.eq_dec) x l) as [Hin|Hin]; [assumption|].
    apply indexOf_absent in Hin. congruence.
  - destruct (indexOf x l <? 0)%Z eqn:E; [|reflexivity].
    apply indexOf_absent in E. contradiction.
Qed.

Lemma indexOf_nth (x : jsstring) (l : list jsstring) (k : nat) :
  NoDup l -> nth_error l k = Some x -> indexOf x l = Z.of_nat k.
Proof.
  unfold indexOf. intros Hnd Hk.
  assert (Hin : In x l) by (eapply nth_error_In; eassumption).
  destruct (indexOf_from_present 0 x l Hin) as (j & Hj & Hn & _).
  rewrite Hj. simpl.
  assert (j = k); [|now subst].
  eapply NoDup_nth_error; try eassumption.
  - apply nth_error_Some. congruence.
  - congruence.
Qed.

Lemma indexOf_app_present (x : jsstring) (l l' : list jsstring) :
  In x l -> indexOf x (l ++ l') = indexOf x l.
Proof.
  unfold indexOf. generalize 0%Z. induction l as [|y l IH]; intros i H; [destruct H|].
  simpl. destruct (jseqb y x) eqn:E; [reflexivity|].
  apply jseqb_neq in E. destruct H as [H|H]; [contradiction|]. now apply IH.
Qed.

Lemma indexOf_app_new (x : jsstring) (l : list jsstring) :
  ~ In x l -> indexOf x (l ++ [x]) = Z.of_nat (length l).
Proof.
  unfold indexOf. intros H.
  assert (G : forall i, indexOf_from i x (l ++ [x]) = (i + Z.of_nat (length l))%Z).
  { induction l as [|y l IH]; intros i; simpl.
    - rewrite jseqb_refl. lia.
    - destruct (jseqb y x) eqn:E.
      + apply jseqb_eq in E. subst. exfalso. apply H. now left.
      + rewrite IH; [lia|]. intros H'. apply H. now right. }
  now rewrite G.
Qed.

(** ** The replacement function *)

Section Replacer.

Variable w : World.

Lemma on_require_outcome (filePath : jsstring) (s : Stream) (m : Match) :
  Outcome filePath s m (fst (on_require w filePath s m)) (snd (on_require w filePath s m)).
Proof.
  unfold on_require.
  destruct (isCore w (group 2 m) && negb (browser (_options s))); [constructor|].
  destruct (excludeNodeModules (_options s) && _); [constructor|].
  destruct (resolve_sync w _ _) as [p|]; [|constructor].
  destruct (isCore w p); [constructor|].
  destruct (jseqb _ _); [apply Native|].
  destruct (indexOf p (_files s) <? 0)%Z eqn:Hidx.
  - apply indexOf_absent in Hidx.
    destruct (excludeFiles (_options s)) as [excl|] eqn:Hex.
    + destruct (indexOf p excl <? 0)%Z eqn:Hexcl; [|constructor].
      apply indexOf_absent in Hexcl. simpl.
      rewrite length_app. simpl length.
      replace (Z.of_nat (length (_files s) + 1) - 1)%Z with (Z.of_nat (length (_files s))) by lia.
      apply Registered; [assumption|]. intros excl' E. rewrite Hex in E. now injection E as <-.
    + simpl. rewrite length_app. simpl length.
      replace (Z.of_nat (length (_files s) + 1) - 1)%Z with (Z.of_nat (length (_files s))) by lia.
      apply Registered; [assumption|]. intros excl' E. rewrite Hex in E. discriminate.
  - apply indexOf_present in Hidx. now apply Reused.
Qed.

Lemma frame_refl (s : Stream) : frame s s.
Proof. repeat split. Qed.

Lemma frame_trans (s1 s2 s3 : Stream) : frame s1 s2 -> frame s2 s3 -> frame s1 s3.
Proof. unfold frame. intuition congruence. Qed.

Lemma grows_refl (s : Stream) : grows s s.
Proof.
  split; [reflexivity|]. split; exists []; rewrite app_nil_r; auto.
Qed.

Lemma grows_trans (s1 s2 s3 : Stream) : grows s1 s2 -> grows s2 s3 -> grows s1 s3.
Proof.
  intros (Ho1 & (l1 & Hf1 & Hn1 & He1) & (a1 & Ha1)) (Ho2 & (l2 & Hf2 & Hn2 & He2) & (a2 & Ha2)).
  split; [congruence|]. split.
  - exists (l1 ++ l2). split; [now rewrite Hf2, Hf1, app_assoc|]. split; [auto|].
    intros excl p Hex Hin Hp. apply in_app_or in Hp as [Hp|Hp].
    + eapply He1; eassumption.
    + rewrite Ho1 in He2. eapply He2; eassumption.
  - exists (a1 ++ a2). now rewrite Ha2, Ha1, app_assoc.
Qed.

Lemma outcome_frame (filePath : jsstring) (s s' : Stream) (m : Match) (text : jsstring) :
  Outcome filePath s m s' text -> frame s s'.
Proof. intros []; repeat split. Qed.

Lemma outcome_grows (filePath : jsstring) (s s' : Stream) (m : Match) (text : jsstring) :
  Outcome filePath s m s' text -> grows s s'.
Proof.
  intros [ |p|p Hin|p Hnew Hexcl]; try apply grows_refl.
  - split; [reflexivity|]. split.
    + exists []. simpl. rewrite app_nil_r. auto.
    + now exists [p].
  - split; [reflexivity|]. split.
    + exists [p]. simpl. repeat split.
      * intros Hnd. apply NoDup_app; [assumption | repeat constructor; intros [] |].
        intros x Hx [<-|[]]. contradiction.
      * intros excl q Hex Hq [<-|[]]. eapply Hexcl; eassumption.
    + exists []. simpl. now rewrite app_nil_r.
Qed.

Lemma call_replacer_preorder (R : Stream -> Stream -> Prop) (f : Stream -> Match -> Stream * jsstring) :
  (forall s, R s s) -> (forall s1 s2 s3, R s1 s2 -> R s2 s3 -> R s1 s3) ->
  (forall s m, R s (fst (f s m))) ->
  forall ms s, R s (fst (call_replacer f s ms)).
Proof.
  intros Hrefl Htrans Hstep. induction ms as [|m ms IH]; intros s; simpl; [apply Hrefl|].
  specialize (Hstep s m). destruct (f s m) as [s1 rep]. simpl in Hstep.
  specialize (IH s1). destruct (call_replacer f s1 ms) as [s2 reps]. simpl in *.
  eapply Htrans; eassumption.
Qed.

Lemma replace_fn_state (r : regex) (f : Stream -> Match -> Stream * jsstring)
    (s : Stream) (code : jsstring) :
  fst (replace_fn r f s code) = fst (call_replacer f s (matches r code)).
Proof. unfold replace_fn. now destruct (call_replacer f s (matches r code)). Qed.

Lemma require_pass_frame (filePath : jsstring) (s : Stream) (code : jsstring) :
  frame s (fst (replace_fn requireRegex (on_require w filePath) s code)).
Proof.
  rewrite replace_fn_state.
  apply call_replacer_preorder; [apply frame_refl | apply frame_trans |].
  intros s0 m. eapply outcome_frame, on_require_outcome.
Qed.

Lemma require_pass_grows (filePath : jsstring) (s : Stream) (code : jsstring) :
  grows s (fst (replace_fn requireRegex (on_require w filePath) s code)).
Proof.
  rewrite replace_fn_state.
  apply call_replacer_preorder; [apply grows_refl | apply grows_trans |].
  intros s0 m. eapply outcome_grows, on_require_outcome.
Qed.

End Replacer.

(** ** One action at a time *)

Section Actions.

Variable w : World.

Lemma push_state (ready : Consumer) (chunk : jsstring) (s : Stream) :
  fst (push ready chunk s) = fst (push always chunk s).
Proof. reflexivity. Qed.

Lemma addFile_state (ready : Consumer) (filePath : jsstring) (s : Stream) :
  fst (_addFile w ready filePath s) = fst (_addFile w always filePath s).
Proof.
  unfold _addFile. destruct (readFileSync w filePath); [|reflexivity].
  now destruct (replace_fn _ _ _ _).
Qed.

(** What [_addFile] does to the stream when the file cannot be read, and when
    it can. *)
Lemma addFile_unreadable (ready : Consumer) (filePath : jsstring) (s : Stream) :
  readFileSync w filePath = None ->
  _addFile w ready filePath s = (nextTick_error filePath s, false).
Proof. unfold _addFile. now intros ->. Qed.

Lemma addFile_readable (ready : Consumer) (filePath code : jsstring) (s : Stream) :
  readFileSync w filePath = Some code ->
  exists s1 chunk,
    _addFile w ready filePath s = push ready chunk s1 /\
    grows s s1 /\ _fileIndex s1 = S (_fileIndex s) /\
    _headerWritten s1 = _headerWritten s /\ pushed s1 = pushed s /\
    ended s1 = ended s /\ errorTicks s1 = errorTicks s /\
    exists body,
      chunk = fill_template (FILE_HEADER w) (indexOf filePath (_files s1)) filePath ++ body ++
              fill_template (FILE_FOOTER w) (indexOf filePath (_files s1)) filePath.
Proof.
  intros Hread. unfold _addFile. rewrite Hread.
  pose proof (require_pass_frame w filePath (set_fileIndex (S (_fileIndex s)) s)
                (replace_str commentRegex [] code)) as Hframe.
  pose proof (require_pass_grows w filePath (set_fileIndex (S (_fileIndex s)) s)
                (replace_str commentRegex [] code)) as Hgrows.
  destruct (replace_fn _ _ _ _) as [s1 code1]. simpl in Hframe, Hgrows.
  destruct Hframe as (Hi & Hh & Hp & He & Ht).
  eexists s1, _. split; [reflexivity|].
  split; [exact Hgrows|]. split; [exact Hi|]. split; [exact Hh|]. split; [exact Hp|].
  split; [exact He|]. split; [exact Ht|].
  exists ((if jseqb (path_extname w filePath) (str ".json")
           then str "module.exports = " else []) ++
          replace_path_tokens w (_options s1) filePath code1).
  now rewrite <- app_assoc.
Qed.

Lemma addFile_grows (ready : Consumer) (filePath : jsstring) (s : Stream) :
  grows s (fst (_addFile w ready filePath s)) /\
  _headerWritten (fst (_addFile w ready filePath s)) = _headerWritten s /\
  ended (fst (_addFile w ready filePath s)) = ended s.
Proof.
  destruct (readFileSync w filePath) as [code|] eqn:Hread.
  - destruct (@addFile_readable ready filePath code s Hread) as (s1 & chunk & -> & Hg & _ & Hh & _ & He & _).
    simpl. split; [exact Hg|]. split; assumption.
  - rewrite addFile_unreadable by assumption. simpl. split; [exact (grows_refl s) | split; reflexivity].
Qed.

Lemma advance_grows (s : Stream) : grows s (advance w s).
Proof.
  unfold advance. destruct (ended s); [apply grows_refl|].
  destruct (negb (_headerWritten s)); [exact (grows_refl s)|].
  destruct (nth_error _ _); [apply addFile_grows | exact (grows_refl s)].
Qed.

Lemma iter_advance_grows (k : nat) (s : Stream) : grows s (Nat.iter k (advance w) s).
Proof.
  induction k as [|k IH]; simpl; [apply grows_refl|].
  eapply grows_trans; [exact IH | apply advance_grows].
Qed.

Lemma advance_ended (s : Stream) : ended s = true -> advance w s = s.
Proof. unfold advance. now intros ->. Qed.

Lemma iter_advance_ended (k : nat) (s : Stream) :
  ended s = true -> Nat.iter k (advance w) s = s.
Proof.
  intros H. induction k as [|k IH]; simpl; [reflexivity|].
  rewrite IH. now apply advance_ended.
Qed.

Lemma iter_advance_add (j k : nat) (s : Stream) :
  Nat.iter (j + k) (advance w) s = Nat.iter k (advance w) (Nat.iter j (advance w) s).
Proof. rewrite Nat.add_comm. apply Nat.iter_add. Qed.

Lemma advance_header (s : Stream) :
  ended s = false -> _headerWritten s = false ->
  advance w s = fst (push always (HEADER w) (set_headerWritten true s)).
Proof. unfold advance. now intros -> ->. Qed.

Lemma advance_file (s : Stream) (filePath : jsstring) :
  ended s = false -> _headerWritten s = true ->
  nth_error (_files s) (_fileIndex s) = Some filePath ->
  advance w s = fst (_addFile w always filePath s).
Proof. unfold advance. now intros -> -> ->. Qed.

Lemma advance_footer (s : Stream) :
  ended s = false -> _headerWritten s = true ->
  nth_error (_files s) (_fileIndex s) = None ->
  advance w s = push_null (fst (push always (FOOTER w) s)).
Proof. unfold advance. now intros -> -> ->. Qed.

(** The loop of [_continueProcessing] is a run of actions. *)
Lemma write_files_actions (fuel : nat) (ready : Consumer) (s s' : Stream) (b : bool) :
  _headerWritten s = true -> ended s = false ->
  write_files w fuel ready s = Some (s', b) ->
  exists k, s' = Nat.iter k (advance w) s /\ _headerWritten s' = true /\ ended s' = false /\
            (b = true -> nth_error (_files s') (_fileIndex s') = None).
Proof.
  revert s. induction fuel as [|fuel IH]; intros s Hh He; simpl.
  - destruct (nth_error (_files s) (_fileIndex s)) eqn:Hn; [discriminate|].
    intros [= <- <-]. exists 0. simpl. auto.
  - destruct (nth_error (_files s) (_fileIndex s)) as [filePath|] eqn:Hn.
    + assert (Hadv : advance w s = fst (_addFile w ready filePath s)).
      { rewrite (advance_file s He Hh Hn). symmetry. apply addFile_state. }
      destruct (addFile_grows ready filePath s) as (_ & Hh1 & He1).
      destruct (_addFile w ready filePath s) as [s1 more]. simpl in *.
      destruct more.
      * intros H. apply IH in H; [|congruence|congruence].
        destruct H as (k & -> & H). exists (S k).
        rewrite Nat.iter_succ_r, Hadv. auto.
      * intros [= <- <-]. exists 1. simpl. rewrite Hadv.
        repeat split; try congruence.
    + intros [= <- <-]. exists 0. simpl. auto.
Qed.

Lemma continueProcessing_actions (fuel : nat) (ready : Consumer) (s s' : Stream) :
  ended s = false -> _continueProcessing w fuel ready s = Some s' ->
  exists k, s' = Nat.iter k (advance w) s.
Proof.
  intros He. unfold _continueProcessing.
  assert (Hloop : forall s0, _headerWritten s0 = true -> ended s0 = false ->
            match write_files w fuel ready s0 with
            | Some (s1, true) => Some (push_null (fst (push ready (FOOTER w) s1)))
            | Some (s1, false) => Some s1
            | None => None
            end = Some s' -> exists k, s' = Nat.iter k (advance w) s0).
  { intros s0 Hh0 He0. destruct (write_files w fuel ready s0) as [[s1 b]|] eqn:Hw; [|discriminate].
    apply write_files_actions in Hw; try assumption.
    destruct Hw as (k & -> & Hh1 & He1 & Hn). destruct b.
    - intros [= <-]. exists (S k). simpl.
      now rewrite (advance_footer _ He1 Hh1 (Hn eq_refl)).
    - intros [= <-]. now exists k. }
  destruct (_headerWritten s) eqn:Hh; simpl.
  - now apply Hloop.
  - assert (Hadv : advance w s = fst (push always (HEADER w) (set_headerWritten true s))).
    { now apply advance_header. }
    destruct (ready (length (pushed s))).
    + intros H. apply Hloop in H; [|reflexivity|exact He].
      destruct H as (k & ->). exists (S k). now rewrite Nat.iter_succ_r, Hadv.
    + intros [= <-]. exists 1. simpl. now rewrite Hadv.
Qed.

Lemma demand_actions (fuel : nat) (ready : Consumer) (s s' : Stream) :
  demand w fuel ready s = Some s' -> exists k, s' = Nat.iter k (advance w) s.
Proof.
  unfold demand, _read. destruct (ended s) eqn:He.
  - intros [= <-]. now exists 0.
  - now apply continueProcessing_actions.
Qed.

Lemma demands_actions (n fuel : nat) (ready : Consumer) (s s' : Stream) :
  demands w n fuel ready s = Some s' -> exists k, s' = Nat.iter k (advance w) s.
Proof.
  revert s. induction n as [|n IH]; intros s; simpl.
  - intros [= <-]. now exists 0.
  - destruct (demand w fuel ready s) as [s1|] eqn:Hd; [|discriminate].
    apply demand_actions in Hd as (j & ->). intros H. apply IH in H as (k & ->).
    exists (j + k). now rewrite iter_advance_add.
Qed.

End Actions.

(** ** The file list *)

Section FileList.

Variable w : World.

Lemma demands_grows (n fuel : nat) (ready : Consumer) (s s' : Stream) :
  demands w n fuel ready s = Some s' -> grows s s'.
Proof. intros H. apply demands_actions in H as (k & ->). apply iter_advance_grows. Qed.

Lemma indexOf_head (x : jsstring) (l : list jsstring) : indexOf x (x :: l) = 0%Z.
Proof. unfold indexOf. simpl. now rewrite jseqb_refl. Qed.

Lemma outcome_files (filePath : jsstring) (t t' : Stream) (m : Match) (text : jsstring) :
  Outcome filePath t m t' text ->
  (_files t' = _files t /\
   (text = m_text m \/
    exists p, In p (_files t) /\
              text = require_call (indexOf p (_files t)) (indexOf filePath (_files t)))) \/
  (exists p, ~ In p (_files t) /\ _files t' = _files t ++ [p] /\
             indexOf p (_files t') = Z.of_nat (length (_files t)) /\
             text = require_call (Z.of_nat (length (_files t))) (indexOf filePath (_files t'))).
Proof.
  intros [ |p|p Hin|p Hnew Hexcl].
  - left. auto.
  - left. auto.
  - left. split; [reflexivity|]. right. now exists p.
  - right. exists p. simpl. repeat split; auto using indexOf_app_new.
Qed.

(** C1.  In every state a run reaches: the entry file has identity 0; the
    list holds no path twice, so the identity of a path is its position; the
    rest of the run only appends to the list; and a call site either leaves
    the list alone (referring, when it is rewritten, to the position a path
    already has) or appends one path that was not in the list, which gets the
    next integer, the length of the list before. *)
Theorem identity_order (entry : jsstring) (options : Options)
    (ready : Consumer) (n fuel : nat) (s : Stream) :
  demands w n fuel ready (constructor w entry options) = Some s ->
  indexOf entry (_files s) = 0%Z /\
  NoDup (_files s) /\
  (forall k p, nth_error (_files s) k = Some p -> indexOf p (_files s) = Z.of_nat k) /\
  (forall n' fuel' ready' s',
     demands w n' fuel' ready' s = Some s' -> exists l, _files s' = _files s ++ l) /\
  (forall t filePath m,
     let r := on_require w filePath t m in
     (_files (fst r) = _files t /\
      (snd r = m_text m \/
       exists p, In p (_files t) /\
                 snd r = require_call (indexOf p (_files t)) (indexOf filePath (_files t)))) \/
     (exists p, ~ In p (_files t) /\ _files (fst r) = _files t ++ [p] /\
                indexOf p (_files (fst r)) = Z.of_nat (length (_files t)) /\
                snd r = require_call (Z.of_nat (length (_files t)))
                          (indexOf filePath (_files (fst r))))).
Proof.
  intros Hrun. apply demands_grows in Hrun as (_ & (l & Hl & Hnd & _) & _).
  simpl in Hl, Hnd.
  assert (Hnd' : NoDup (_files s)).
  { apply Hnd. repeat constructor. intros []. }
  split; [rewrite Hl; apply indexOf_head|].
  split; [exact Hnd'|].
  split; [intros k p; now apply indexOf_nth|].
  split.
  - intros n' fuel' ready' s' H. apply demands_grows in H as (_ & (l' & Hl' & _) & _).
    now exists l'.
  - intros t filePath m r. eapply outcome_files. apply on_require_outcome.
Qed.

End FileList.

(** The three-module project, read in one go: what comes out. *)
Example abc_output :
  pushed Fixture.abc_done =
    [str "HEAD;";
     str "<0:/p/a.js>var b = __require(1,0); __require(2,0); require('fs');</0>";
     str "<1:/p/b.js>__require(2,1) + __require(0,1)</1>";
     str "<2:/p/c.js>module.exports = 1;</2>";
     str "FOOT;"].
Proof. reflexivity. Qed.

(** The three-module project, read in one go: the list is [a], [b], [c]. *)
Lemma identity_order_witness :
  exists s,
    demands (Fixture.world_of Fixture.abc) 1 10 always
      (constructor (Fixture.world_of Fixture.abc) (str "/p/a.js") no_options) = Some s /\
    _files s = [str "/p/a.js"; str "/p/b.js"; str "/p/c.js"] /\
    indexOf (str "/p/a.js") (_files s) = 0%Z /\ NoDup (_files s).
Proof.
  eexists. split; [vm_compute; reflexivity|].
  split; [reflexivity|].
  refine (let H := @identity_order (Fixture.world_of Fixture.abc) (str "/p/a.js") no_options
                     always 1 10 _ _ in conj (proj1 H) (proj1 (proj2 H))).
  vm_compute. reflexivity.
Defined.

(** ** Statistics *)

Section Stats.

Variable w : World.

Lemma advance_complete (s : Stream) :
  _fileIndex s = length (_files s) ->
  _files (advance w s) = _files s /\ _fileIndex (advance w s) = _fileIndex s /\
  _addonsExcluded (advance w s) = _addonsExcluded s.
Proof.
  intros H. unfold advance. destruct (ended s); [auto|].
  destruct (negb (_headerWritten s)); [auto|].
  destruct (nth_error (_files s) (_fileIndex s)) eqn:Hn; [|auto].
  assert (_fileIndex s < length (_files s)) by (apply nth_error_Some; congruence). lia.
Qed.

Lemma iter_advance_complete (k : nat) (s : Stream) :
  _fileIndex s = length (_files s) ->
  _files (Nat.iter k (advance w) s) = _files s /\
  _fileIndex (Nat.iter k (advance w) s) = _fileIndex s /\
  _addonsExcluded (Nat.iter k (advance w) s) = _addonsExcluded s.
Proof.
  intros H. induction k as [|k (Hf & Hi & Ha)]; simpl; [auto|].
  destruct (advance_complete (Nat.iter k (advance w) s)) as (Hf' & Hi' & Ha'); [congruence|].
  repeat split; congruence.
Qed.

(** C9.  [getStats] throws exactly when the cursor is below the length of the
    file list.  Once the cursor is at the length it returns the two lists,
    and so does it, with the same value, after any further demand signals. *)
Theorem getStats_available (s : Stream) :
  (getStats s = inl StatisticsNotYetAvailable <-> _fileIndex s < length (_files s)) /\
  (_fileIndex s = length (_files s) ->
   getStats s = inr (_files s, _addonsExcluded s) /\
   forall n fuel ready s',
     demands w n fuel ready s = Some s' -> getStats s' = getStats s).
Proof.
  split.
  - unfold getStats. destruct (_fileIndex s <? length (_files s)) eqn:E.
    + apply Nat.ltb_lt in E. tauto.
    + apply Nat.ltb_ge in E. split; [discriminate | lia].
  - intros H. split.
    + unfold getStats. replace (_fileIndex s <? length (_files s)) with false; [reflexivity|].
      symmetry. apply Nat.ltb_ge. lia.
    + intros n fuel ready s' Hrun. apply demands_actions in Hrun as (k & ->).
      destruct (iter_advance_complete k s H) as (Hf & Hi & Ha).
      unfold getStats. now rewrite Hf, Hi, Ha.
Qed.

End Stats.

(** The three-module project once it went through: the statistics are there,
    and stay what they are under three more demand signals. *)
Lemma getStats_available_witness :
  getStats Fixture.abc_done =
    inr ([str "/p/a.js"; str "/p/b.js"; str "/p/c.js"], []) /\
  forall s', demands (Fixture.world_of Fixture.abc) 3 10 always Fixture.abc_done = Some s' ->
             getStats s' = getStats Fixture.abc_done.
Proof.
  destruct (proj2 (getStats_available (Fixture.world_of Fixture.abc) Fixture.abc_done) eq_refl)
    as [H1 H2].
  split; [exact H1|]. intros s'. apply H2.
Defined.

(** ** A file that cannot be read *)

Section ReadFailure.

Variable w : World.



End ReadFailure.



(** ** The entry path *)

Section Entry.

Variable w : World.

Lemma on_require_resolved (filePath : jsstring) (t : Stream) (m : Match) (p : jsstring) :
  resolves_to w filePath t m p ->
  on_require w filePath t m =
    if isCore w p then (t, m_text m)
    else if jseqb (toLowerCase w (path_extname w p)) (str ".node") then
      (set_addonsExcluded (_addonsExcluded t ++ [p]) t, m_text m)
    else if (indexOf p (_files t) <? 0)%Z then
      if match excludeFiles (_options t) with
         | None => true
         | Some excl => (indexOf p excl <? 0)%Z
         end
      then (set_files (_files t ++ [p]) t,
            require_call (Z.of_nat (length (_files t ++ [p])) - 1)
              (indexOf filePath (_files t ++ [p])))
      else (t, m_text m)
    else (t, require_call (indexOf p (_files t)) (indexOf filePath (_files t))).
Proof.
  intros (H1 & H2 & H3). unfold on_require. cbv zeta. rewrite H1, H2, H3. reflexivity.
Qed.

(** C10.  The constructor puts the entry path in the list as it is given.  A
    call site that resolves to a path [p] other than that text, [p] being
    neither core, native nor excluded, is rewritten to refer to [p] as a file
    of its own: [p] is in the list with an identity of at least 1, next to the
    entry at identity 0, and it is appended if it was not in the list yet. *)
Theorem entry_verbatim (entry : jsstring) (options : Options) :
  _files (constructor w entry options) = [entry] /\
  forall (t : Stream) (l : list jsstring) (filePath : jsstring) (m : Match) (p : jsstring),
    _files t = entry :: l ->
    resolves_to w filePath t m p ->
    p <> entry ->
    isCore w p = false ->
    jseqb (toLowerCase w (path_extname w p)) (str ".node") = false ->
    (forall excl, excludeFiles (_options t) = Some excl -> ~ In p excl) ->
    let r := on_require w filePath t m in
    In p (_files (fst r)) /\
    (1 <= indexOf p (_files (fst r)))%Z /\
    indexOf entry (_files (fst r)) = 0%Z /\
    snd r = require_call (indexOf p (_files (fst r))) (indexOf filePath (_files (fst r))) /\
    (~ In p (_files t) -> _files (fst r) = _files t ++ [p]).
Proof.
  split; [reflexivity|].
  intros t l filePath m p Hfiles Hres Hneq Hcore Hnode Hexcl r. subst r.
  rewrite (on_require_resolved Hres), Hcore, Hnode.
  assert (Hpos : forall l', In p (entry :: l') -> (1 <= indexOf p (entry :: l'))%Z).
  { intros l' Hin. destruct (indexOf_from_present 0 p (entry :: l') Hin) as (k & Hk & Hn & _).
    unfold indexOf. rewrite Hk. destruct k; [|lia].
    simpl in Hn. congruence. }
  destruct (indexOf p (_files t) <? 0)%Z eqn:Hidx.
  - apply indexOf_absent in Hidx.
    assert (Hif : match excludeFiles (_options t) with
                  | None => true
                  | Some excl => (indexOf p excl <? 0)%Z
                  end = true).
    { destruct (excludeFiles (_options t)) as [excl|] eqn:Hex; [|reflexivity].
      apply indexOf_absent. now apply Hexcl. }
    rewrite Hif. simpl.
    assert (Hin : In p (_files t ++ [p])) by (apply in_or_app; right; now left).
    split; [exact Hin|].
    split; [rewrite Hfiles in *; now apply (Hpos (l ++ [p]))|].
    split; [rewrite Hfiles; apply indexOf_head|].
    split; [|reflexivity].
    rewrite indexOf_app_new by assumption. rewrite length_app. simpl.
    f_equal. lia.
  - apply indexOf_present in Hidx. simpl.
    split; [exact Hidx|].
    split; [rewrite Hfiles in *; now apply Hpos|].
    split; [rewrite Hfiles; apply indexOf_head|].
    split; [reflexivity|]. intros H. contradiction.
Qed.

End Entry.

(** The entry is given as [./a.js] and requires itself; the resolver answers
    [/p/a.js]: the same file is in the list twice, as 0 and as 1. *)
Lemma entry_verbatim_witness :
  let W := Fixture.world_of Fixture.selfref in
  let t := set_fileIndex 1 (constructor W (str "./a.js") no_options) in
  let r := on_require W (str "./a.js") t (Fixture.call_site (str "require('./a')")) in
  _files (fst r) = [str "./a.js"; str "/p/a.js"] /\
  indexOf (str "/p/a.js") (_files (fst r)) = 1%Z /\
  indexOf (str "./a.js") (_files (fst r)) = 0%Z /\
  snd r = str "__require(1,0)".
Proof.
  intros W t r.
  assert (Hres : resolves_to W (str "./a.js") t (Fixture.call_site (str "require('./a')"))
                   (str "/p/a.js")) by (repeat split).
  assert (Hneq : str "/p/a.js" <> str "./a.js") by discriminate.
  assert (Hexcl : forall excl, excludeFiles (_options t) = Some excl -> ~ In (str "/p/a.js") excl)
    by discriminate.
  destruct (proj2 (entry_verbatim W (str "./a.js") no_options) t [] (str "./a.js")
              (Fixture.call_site (str "require('./a')")) (str "/p/a.js")
              eq_refl Hres Hneq eq_refl eq_refl Hexcl) as (_ & _ & H0 & H1 & H2).
  split; [apply H2; intros [H|[]]; discriminate|].
  split; [reflexivity|]. split; [exact H0 | exact H1].
Defined.

(** ** Excluded files *)

Section Exclusion.

Variable w : World.

(** C7, as the code has it.  A path of the exclude list (as the constructor
    normalizes it) that is not the entry path is in the file list in no state
    of the run, and a call site that resolves to it keeps its text and leaves
    the list as it is. *)
Theorem excluded_never_added (entry : jsstring) (options : Options)
    (excl : list jsstring) (p : jsstring) :
  excludeFiles options = Some excl ->
  In p (map (path_resolve w) excl) ->
  p <> entry ->
  (forall n fuel ready s,
     demands w n fuel ready (constructor w entry options) = Some s -> ~ In p (_files s)) /\
  (forall t filePath m,
     grows (constructor w entry options) t ->
     resolves_to w filePath t m p ->
     ~ In p (_files t) /\
     snd (on_require w filePath t m) = m_text m /\
     _files (fst (on_require w filePath t m)) = _files t).
Proof.
  intros Hex Hin Hneq.
  assert (Hgrown : forall t, grows (constructor w entry options) t ->
            excludeFiles (_options t) = Some (map (path_resolve w) excl) /\ ~ In p (_files t)).
  { intros t (Ho & (l & Hl & _ & Hnot) & _). split.
    - rewrite Ho. simpl. now rewrite Hex.
    - rewrite Hl. simpl. intros [H|H]; [congruence|].
      apply (Hnot (map (path_resolve w) excl) p); [simpl; now rewrite Hex | assumption | assumption]. }
  split.
  - intros n fuel ready s Hrun. apply demands_grows in Hrun. now apply Hgrown.
  - intros t filePath m Hg Hres. destruct (Hgrown t Hg) as (Hopt & Hnew).
    split; [exact Hnew|].
    rewrite (on_require_resolved Hres).
    destruct (isCore w p); [auto|].
    destruct (jseqb _ _); [auto|].
    replace (indexOf p (_files t) <? 0)%Z with true by (symmetry; now apply indexOf_absent).
    rewrite Hopt.
    replace (indexOf p (map (path_resolve w) excl) <? 0)%Z with false
      by (symmetry; now apply indexOf_present).
    auto.
Qed.

End Exclusion.

(** [a] requires [b], [b] is excluded: [b] is never in the list, and the call
    site in [a] comes out as it went in. *)
Lemma excluded_never_added_witness :
  let W := Fixture.world_of Fixture.ab in
  (exists s,
     demands W 1 10 always (constructor W (str "/p/a.js") Fixture.exclude_b) = Some s /\
     ~ In (str "/p/b.js") (_files s)) /\
  snd (on_require W (str "/p/a.js")
         (set_fileIndex 1 (constructor W (str "/p/a.js") Fixture.exclude_b))
         (Fixture.call_site (str "require('./b')"))) = str "require('./b')".
Proof.
  intros W.
  assert (Hin : In (str "/p/b.js") (map (path_resolve W) [str "/p/b.js"])) by (now left).
  assert (Hneq : str "/p/b.js" <> str "/p/a.js") by discriminate.
  destruct (@excluded_never_added W (str "/p/a.js") Fixture.exclude_b [str "/p/b.js"]
              (str "/p/b.js") eq_refl Hin Hneq) as (H1 & H2).
  split.
  - eexists. split; [vm_compute; reflexivity|]. eapply (H1 1 10 always). vm_compute. reflexivity.
  - apply (H2 (set_fileIndex 1 (constructor W (str "/p/a.js") Fixture.exclude_b))).
    + exact (grows_refl _).
    + repeat split.
Defined.

(** C7, as the claim has it, fails when the excluded path is the entry path:
    it is in the list from the start, and the call site that resolves to it is
    rewritten. *)
Lemma excluded_entry_in_list :
  let W := Fixture.world_of Fixture.loop in
  In (str "/p/a.js") (map (path_resolve W) [str "/p/a.js"]) /\
  exists s,
    demands W 1 10 always (constructor W (str "/p/a.js") Fixture.exclude_entry) = Some s /\
    In (str "/p/a.js") (_files s) /\
    pushed s = [str "HEAD;"; str "<0:/p/a.js>__require(0,0)</0>"; str "FOOT;"].
Proof.
  intros W. split; [now left|].
  eexists. split; [vm_compute; reflexivity|]. split; [now left | reflexivity].
Qed.

(** ** Third-party modules *)

Lemma exec_from_unfold (r : regex) (i : nat) (s : jsstring) :
  exec_from r i s =
    match matcher r (mkState i s []) Some with
    | Some y => Some (mkMatch i (firstn (endIndex y - i) s) (captures y))
    | None => match s with [] => None | _ :: tl => exec_from r (S i) tl end
    end.
Proof. now destruct s. Qed.

Lemma pathPrefix_not_at_start (i : nat) (s : jsstring) :
  exec_from pathPrefixRegex (S i) s = None.
Proof.
  revert i. induction s as [|c s IH]; intros i; rewrite exec_from_unfold; [reflexivity|].
  simpl. apply IH.
Qed.

Lemma pathPrefix_test (name : jsstring) :
  match exec pathPrefixRegex name with None => true | Some _ => false end =
  negb (looks_like_path name).
Proof.
  unfold exec. rewrite exec_from_unfold.
  replace (match name with [] => None | _ :: tl => exec_from pathPrefixRegex 1 tl end)
    with (@None Match) by (destruct name; [reflexivity | symmetry; apply pathPrefix_not_at_start]).
  unfold looks_like_path, starts_with.
  destruct name as [|c1 [|c2 [|c3 tl]]]; cbn -[N.eqb];
    repeat match goal with
           | |- context [N.eqb ?a ?b] => destruct (N.eqb_spec a b); subst; cbn -[N.eqb]
           end; try reflexivity; try discriminate.
Qed.

Lemma strip_prefix_some (a b r : jsstring) : strip_prefix a b = Some r -> b = a ++ r.
Proof.
  revert b. induction a as [|x a IH]; intros b; simpl.
  - now intros [= ->].
  - destruct b as [|y b]; [discriminate|].
    destruct (N.eqb_spec x y) as [->|_]; [|discriminate].
    intros H. now rewrite (IH _ H).
Qed.

Lemma replace_first_from_cons (before_rev pat tmpl : jsstring) (c : char) (s : jsstring) :
  replace_first_from before_rev pat tmpl (c :: s) =
    match strip_prefix pat (c :: s) with
    | Some after => rev before_rev ++ GetSubstitution pat (rev before_rev) after tmpl ++ after
    | None => replace_first_from (c :: before_rev) pat tmpl s
    end.
Proof. reflexivity. Qed.

Lemma unescape_shape (before_rev s : jsstring) :
  replace_first_from before_rev [BACKSLASH; BACKSLASH] [BACKSLASH] s = rev before_rev ++ s \/
  exists a b, s = a ++ BACKSLASH :: BACKSLASH :: b /\
    replace_first_from before_rev [BACKSLASH; BACKSLASH] [BACKSLASH] s =
      rev before_rev ++ a ++ BACKSLASH :: b.
Proof.
  revert before_rev. induction s as [|c s IH]; intros before_rev.
  - left. simpl. now rewrite app_nil_r.
  - rewrite replace_first_from_cons.
    destruct (strip_prefix [BACKSLASH; BACKSLASH] (c :: s)) as [after|] eqn:Hp.
    + apply strip_prefix_some in Hp. right. exists [], after. split; [exact Hp | reflexivity].
    + destruct (IH (c :: before_rev)) as [H|(a & b & Hs & H)].
      * left. rewrite H. simpl. now rewrite <- app_assoc.
      * right. exists (c :: a), b. split; [simpl; now rewrite Hs|].
        rewrite H. simpl. now rewrite <- app_assoc.
Qed.

Lemma starts_with_before_backslash (pre a x y : jsstring) :
  ~ In BACKSLASH pre ->
  starts_with pre (a ++ BACKSLASH :: x) = starts_with pre (a ++ BACKSLASH :: y).
Proof.
  unfold starts_with. revert a. induction pre as [|c pre IH]; intros a Hpre; [reflexivity|].
  destruct a as [|d a]; simpl.
  - destruct (N.eqb_spec c BACKSLASH) as [->|_]; [|reflexivity].
    exfalso. apply Hpre. now left.
  - destruct (N.eqb c d); [|reflexivity]. apply IH. intros H. apply Hpre. now right.
Qed.

Lemma looks_like_path_unescape (name : jsstring) :
  looks_like_path (replace_first [BACKSLASH; BACKSLASH] [BACKSLASH] name) = looks_like_path name.
Proof.
  unfold replace_first. destruct (unescape_shape [] name) as [->|(a & b & -> & ->)]; [reflexivity|].
  unfold looks_like_path. simpl rev. simpl app at 1 3 5.
  rewrite !(@starts_with_before_backslash _ a b (BACKSLASH :: b)); [reflexivity| | |];
    intros H; simpl in H; unfold BACKSLASH in H;
    repeat (destruct H as [H|H]; [discriminate|]); exact H.
Qed.

(** C8.  With the exclude-third-party option on, a call site whose name does
    not begin with [./], [../] or [/] is left as it is and nothing else
    happens: whatever the world, the resolver included, the stream is the one
    before and the text is the matched text.  The test of the rule is passed
    by exactly the names that begin with none of the three prefixes; for a
    name that begins with one, the call site is treated as it is with the
    option off. *)
Theorem third_party_left_alone (filePath : jsstring) (t : Stream) (m : Match) :
  (match exec pathPrefixRegex (replace_first [BACKSLASH; BACKSLASH] [BACKSLASH] (group 2 m)) with
   | None => true
   | Some _ => false
   end = negb (looks_like_path (group 2 m))) /\
  (excludeNodeModules (_options t) = true ->
   looks_like_path (group 2 m) = false ->
   forall w, on_require w filePath t m = (t, m_text m)) /\
  (looks_like_path (group 2 m) = true ->
   forall w,
     let r := on_require w filePath (with_excludeNodeModules true t) m in
     let r' := on_require w filePath (with_excludeNodeModules false t) m in
     snd r = snd r' /\ _files (fst r) = _files (fst r') /\
     _addonsExcluded (fst r) = _addonsExcluded (fst r')).
Proof.
  assert (Htest : match exec pathPrefixRegex
                          (replace_first [BACKSLASH; BACKSLASH] [BACKSLASH] (group 2 m)) with
                  | None => true
                  | Some _ => false
                  end = negb (looks_like_path (group 2 m))).
  { now rewrite pathPrefix_test, looks_like_path_unescape. }
  split; [exact Htest|]. split.
  - intros Hopt Hname w. unfold on_require. cbv zeta.
    destruct (isCore w (group 2 m) && negb (browser (_options t))); [reflexivity|].
    now rewrite Hopt, Htest, Hname.
  - intros Hname w r r'. subst r r'. unfold on_require. cbv zeta.
    rewrite Htest, Hname. simpl.
    destruct (isCore w (group 2 m) && negb (browser (_options t))); [auto|].
    destruct (resolve_sync w _ _) as [p|]; [|auto].
    destruct (isCore w p); [auto|].
    destruct (jseqb _ _); [auto|].
    destruct (indexOf p (_files t) <? 0)%Z; [|auto].
    destruct (excludeFiles (_options t)) as [excl|]; [|auto].
    destruct (indexOf p excl <? 0)%Z; auto.
Qed.

(** With the option on, [require('lodash')] in [a] is left alone, and
    [require('./b')] is rewritten as it is with the option off. *)
Lemma third_party_left_alone_witness :
  let W := Fixture.world_of Fixture.abc in
  let t := constructor W (str "/p/a.js") Fixture.no_third_party in
  on_require W (str "/p/a.js") t (Fixture.call_site (str "require('lodash')")) =
    (t, str "require('lodash')") /\
  snd (on_require W (str "/p/a.js") t (Fixture.call_site (str "require('./b')"))) =
    str "__require(1,0)".
Proof.
  intros W t. split.
  - exact (proj1 (proj2 (third_party_left_alone (str "/p/a.js") t
                           (Fixture.call_site (str "require('lodash')"))))
             eq_refl eq_refl W).
  - destruct (proj2 (proj2 (third_party_left_alone (str "/p/a.js") t
                              (Fixture.call_site (str "require('./b')"))))
                eq_refl W) as (H & _).
    exact H.
Defined.

(** ** The matcher *)

Lemma progress_step (i : nat) (s tl : jsstring) (caps caps' : list (nat * jsstring)) :
  progress (mkState i s caps) (mkState (S i) tl caps') = true.
Proof.
  unfold progress. cbn [endIndex]. apply negb_true_iff, Nat.eqb_neq. lia.
Qed.

Lemma repeat_chars (p : char -> bool) (c : Continuation) (fuel : nat) :
  forall (i : nat) (s : jsstring) (caps : list (nat * jsstring)),
    length s < fuel ->
    repeat_matcher (matcher (Char p)) c fuel (mkState i s caps) = greedy_chars p c i s caps.
Proof.
  induction fuel as [|fuel IH]; intros i s caps Hlen; [lia|].
  destruct s as [|ch tl].
  - reflexivity.
  - cbn [repeat_matcher matcher rest endIndex captures greedy_chars].
    destruct (p ch); [|reflexivity].
    rewrite progress_step, IH by (simpl in Hlen; lia). reflexivity.
Qed.

Lemma star_chars (p : char -> bool) (c : Continuation) (i : nat) (s : jsstring)
    (caps : list (nat * jsstring)) :
  matcher (Star (Char p)) (mkState i s caps) c = greedy_chars p c i s caps.
Proof. apply (@repeat_chars p c (S (length s))). lia. Qed.

Section Within.

Variables (i : nat) (s : jsstring) (Q : MatchState -> Prop).

Lemma within_step (x : MatchState) (ch : char) (tl : jsstring) :
  within i s x -> rest x = ch :: tl -> within i s (mkState (S (endIndex x)) tl (captures x)).
Proof.
  intros (pre & Hs & He) Hr. exists (pre ++ [ch]). simpl.
  rewrite Hs, Hr, <- app_assoc, length_app. simpl. split; [reflexivity | lia].
Qed.

Lemma matcher_within (r : regex) :
  forall (x : MatchState) (c : Continuation) (z : MatchState),
    within i s x ->
    (forall y z', within i s y -> c y = Some z' -> Q z') ->
    matcher r x c = Some z -> Q z.
Proof.
  induction r as [ |p| |r1 IH1 r2 IH2|r1 IH1 r2 IH2|r IH|r IH|n r IH|n|r IH];
    intros x c z Hx Hc; cbn [matcher].
  - apply Hc, Hx.
  - destruct (rest x) as [|ch tl] eqn:Hr; [discriminate|].
    destruct (p ch); [|discriminate].
    apply Hc. eapply within_step; eassumption.
  - destruct (endIndex x =? 0); [apply Hc, Hx | discriminate].
  - apply IH1; [exact Hx|]. intros y z' Hy. now apply IH2.
  - destruct (matcher r1 x c) as [z1|] eqn:H1.
    + intros [= <-]. eapply IH1; eassumption.
    + now apply IH2.
  - generalize (S (length (rest x))) as fuel. intros fuel. revert x z Hx.
    induction fuel as [|fuel IHf]; intros x z Hx; cbn [repeat_matcher]; [apply Hc, Hx|].
    destruct (matcher r x _) as [z1|] eqn:H1.
    + intros [= <-]. refine (IH x _ z1 Hx _ H1).
      intros y z' Hy. destruct (progress x y); [|discriminate]. now apply IHf.
    + apply Hc, Hx.
  - destruct (matcher r x _) as [z1|] eqn:H1.
    + intros [= <-]. refine (IH x _ z1 Hx _ H1).
      intros y z' Hy. destruct (progress x y); [|discriminate]. now apply Hc.
    + apply Hc, Hx.
  - apply IH; [exact Hx|]. intros y z' Hy. apply Hc.
    destruct Hy as (pre & Hs & He). now exists pre.
  - destruct (capture n (captures x)) as [t|]; [|apply Hc, Hx].
    destruct (strip_prefix t (rest x)) as [tl|] eqn:Hp; [|discriminate].
    apply Hc. apply strip_prefix_some in Hp. destruct Hx as (pre & Hs & He).
    exists (pre ++ t). simpl. rewrite Hs, Hp, <- app_assoc, length_app.
    split; [reflexivity | lia].
  - destruct (matcher r x Some); [discriminate|]. apply Hc, Hx.
Qed.

End Within.

Lemma matcher_result_within (r : regex) (i : nat) (s : jsstring) (y : MatchState) :
  matcher r (mkState i s []) Some = Some y -> within i s y.
Proof.
  apply (@matcher_within i s (within i s) r).
  - exists []. simpl. split; [reflexivity | lia].
  - now intros y0 z Hy [= <-].
Qed.

(** ** Line comments *)

Lemma to_line_end (i : nat) (s : jsstring) (caps : list (nat * jsstring)) :
  option_map rest (greedy_chars (fun ch => negb (is_line_terminator ch)) Some i s caps) =
  Some (skip_to_line_end s).
Proof.
  revert i. induction s as [|ch tl IH]; intros i; [reflexivity|].
  cbn [greedy_chars skip_to_line_end].
  destruct (is_line_terminator ch); cbn [negb]; [reflexivity|].
  specialize (IH (S i)).
  destruct (greedy_chars _ Some (S i) tl caps); [exact IH | discriminate].
Qed.

Lemma slashes_then_line (i : nat) (t : jsstring) (caps : list (nat * jsstring)) :
  option_map rest (matcher (Seq (lit (str "//")) (Star dot)) (mkState i t caps) Some) =
  match t with
  | c1 :: c2 :: body =>
      if N.eqb c1 47 && N.eqb c2 47 then Some (skip_to_line_end body) else None
  | _ => None
  end.
Proof.
  change (matcher (Seq (lit (str "//")) (Star dot)) (mkState i t caps) Some)
    with (matcher (Char (N.eqb 47)) (mkState i t caps)
            (fun y => matcher (Char (N.eqb 47)) y (fun z => matcher (Star dot) z Some))).
  destruct t as [|c1 t]; [reflexivity|].
  cbn [matcher rest endIndex captures].
  rewrite (N.eqb_sym c1). destruct (N.eqb 47 c1); [|now destruct t].
  destruct t as [|c2 body]; [reflexivity|].
  rewrite (N.eqb_sym c2). destruct (N.eqb 47 c2); [|reflexivity].
  cbn [andb].
  change (repeat_matcher (matcher dot) Some (S (length body)) (mkState (S (S i)) body caps))
    with (matcher (Star (Char (fun ch => negb (is_line_terminator ch))))
            (mkState (S (S i)) body caps) Some).
  rewrite star_chars. apply to_line_end.
Qed.

Lemma space_not_slash (ch : char) : is_space ch = true -> N.eqb 47 ch = false.
Proof. destruct (N.eqb_spec 47 ch) as [<-|]; [discriminate | reflexivity]. Qed.

Lemma blanks_then_comment (i : nat) (t : jsstring) (caps : list (nat * jsstring)) :
  option_map rest
    (greedy_chars is_space (fun y => matcher (Seq (lit (str "//")) (Star dot)) y Some) i t caps) =
  match skip_blanks t with
  | c1 :: c2 :: body =>
      if N.eqb c1 47 && N.eqb c2 47 then Some (skip_to_line_end body) else None
  | _ => None
  end.
Proof.
  revert i. induction t as [|ch tl IH]; intros i.
  - reflexivity.
  - cbn [greedy_chars skip_blanks]. destruct (is_space ch) eqn:Hsp.
    + specialize (IH (S i)).
      destruct (greedy_chars is_space _ (S i) tl caps) as [z|]; [exact IH|].
      rewrite <- IH, slashes_then_line.
      rewrite (N.eqb_sym ch), (space_not_slash _ Hsp). now destruct tl.
    + exact (slashes_then_line i (ch :: tl) caps).
Qed.

Lemma comment_tail (j : nat) (t : jsstring) :
  option_map rest
    (matcher (Seq (Star space) (Seq (lit (str "//")) (Star dot))) (mkState j t []) Some) =
  match skip_blanks t with
  | c1 :: c2 :: body =>
      if N.eqb c1 47 && N.eqb c2 47 then Some (skip_to_line_end body) else None
  | _ => None
  end.
Proof.
  change (matcher (Seq (Star space) (Seq (lit (str "//")) (Star dot))) (mkState j t []) Some)
    with (matcher (Star (Char is_space)) (mkState j t [])
            (fun y => matcher (Seq (lit (str "//")) (Star dot)) y Some)).
  rewrite star_chars. apply blanks_then_comment.
Qed.

Lemma comment_match (i : nat) (s : jsstring) :
  option_map rest (matcher commentRegex (mkState i s []) Some) = comment_run s.
Proof.
  set (tail := Seq (Star space) (Seq (lit (str "//")) (Star dot))).
  change (matcher commentRegex (mkState i s []) Some)
    with (match matcher (Char (N.eqb CR)) (mkState i s [])
                  (fun y => matcher (Opt (Char (N.eqb LF))) y (fun z => matcher tail z Some)) with
          | Some z => Some z
          | None => matcher (Char (N.eqb LF)) (mkState i s []) (fun z => matcher tail z Some)
          end).
  destruct s as [|ch tl]; [reflexivity|].
  cbn [matcher rest endIndex captures comment_run].
  rewrite (N.eqb_sym ch CR), (N.eqb_sym ch LF).
  destruct (N.eqb_spec CR ch) as [<-|Hcr].
  - cbn [orb]. replace (N.eqb LF CR) with false by reflexivity.
    destruct tl as [|c2 tl2].
    + reflexivity.
    + destruct (N.eqb_spec LF c2) as [<-|Hlf].
      * rewrite progress_step.
        pose proof (comment_tail (S (S i)) tl2) as H2.
        pose proof (comment_tail (S i) (LF :: tl2)) as H1.
        change (skip_blanks (LF :: tl2)) with (skip_blanks tl2) in *.
        fold tail in H1, H2.
        destruct (matcher tail (mkState (S (S i)) tl2 []) Some) as [z|]; [exact H2|].
        destruct (matcher tail (mkState (S i) (LF :: tl2) []) Some) as [z|]; [exact H1|].
        exact H2.
      * pose proof (comment_tail (S i) (c2 :: tl2)) as H1. fold tail in H1.
        destruct (matcher tail (mkState (S i) (c2 :: tl2) []) Some) as [z|]; exact H1.
  - cbn [orb]. destruct (N.eqb LF ch).
    + apply comment_tail.
    + reflexivity.
Qed.

Lemma skip_blanks_length (t : jsstring) : length (skip_blanks t) <= length t.
Proof.
  induction t as [|ch tl IH]; simpl; [lia|]. destruct (is_space ch); simpl; lia.
Qed.

Lemma skip_to_line_end_length (t : jsstring) : length (skip_to_line_end t) <= length t.
Proof.
  induction t as [|ch tl IH]; simpl; [lia|]. destruct (is_line_terminator ch); simpl; lia.
Qed.

Lemma comment_run_shorter (s after : jsstring) :
  comment_run s = Some after -> length after < length s.
Proof.
  destruct s as [|ch tl]; [discriminate|]. cbn [comment_run].
  destruct (_ || _); [|discriminate].
  pose proof (skip_blanks_length tl) as Hb.
  destruct (skip_blanks tl) as [|c1 [|c2 body]]; try discriminate.
  destruct (_ && _); [|discriminate]. intros [= <-].
  pose proof (skip_to_line_end_length body). simpl in *. lia.
Qed.

Lemma strip_runs_fuel (f f' : nat) (s : jsstring) :
  length s < f -> length s < f' -> strip_runs f s = strip_runs f' s.
Proof.
  revert f' s. induction f as [|f IH]; intros f' s Hf Hf'; [lia|].
  destruct f' as [|f']; [lia|]. cbn [strip_runs].
  destruct (comment_run s) as [after|] eqn:Hrun.
  - apply comment_run_shorter in Hrun. apply IH; lia.
  - destruct s as [|ch tl]; [reflexivity|]. f_equal. apply IH; simpl in *; lia.
Qed.

Lemma exec_from_index (r : regex) (s : jsstring) :
  forall i m, exec_from r i s = Some m -> i <= m_index m.
Proof.
  induction s as [|c t IH]; intros i m; rewrite exec_from_unfold;
    destruct (matcher r _ Some).
  - intros [= <-]. simpl. lia.
  - discriminate.
  - intros [= <-]. simpl. lia.
  - intros H. apply IH in H. lia.
Qed.

Lemma match_all_skip (fuel : nat) (r : regex) (i : nat) (c : char) (t : jsstring) :
  matcher r (mkState i (c :: t) []) Some = None ->
  match_all fuel r i (c :: t) = match_all fuel r (S i) t.
Proof.
  intros Hfail. destruct fuel as [|fuel]; [reflexivity|].
  cbn [match_all]. rewrite (exec_from_unfold r i (c :: t)), Hfail.
  destruct (exec_from r (S i) t) as [m|] eqn:E; [|reflexivity].
  apply exec_from_index in E.
  replace (m_index m - i) with (S (m_index m - S i)) by lia. reflexivity.
Qed.

Lemma match_all_index (fuel : nat) (r : regex) (i : nat) (s : jsstring) (m : Match)
    (ms : list Match) :
  match_all fuel r i s = m :: ms -> i <= m_index m.
Proof.
  destruct fuel as [|fuel]; [discriminate|]. cbn [match_all].
  destruct (exec_from r i s) as [m'|] eqn:E; [|discriminate].
  apply exec_from_index in E.
  destruct (length (m_text m')); [destruct (skipn _ s)|]; intros [= <- _]; exact E.
Qed.

Lemma match_all_here (fuel : nat) (r : regex) (i : nat) (s : jsstring) (y : MatchState) :
  matcher r (mkState i s []) Some = Some y ->
  length (rest y) < length s ->
  exists m, m_index m = i /\ length (m_text m) = length s - length (rest y) /\
    match_all (S fuel) r i s = m :: match_all fuel r (i + length (m_text m)) (rest y).
Proof.
  intros Hm Hlen. destruct (matcher_result_within _ _ _ Hm) as (pre & Hs & He).
  assert (Hpre : length pre = length s - length (rest y)).
  { rewrite Hs at 1. rewrite length_app. lia. }
  exists (mkMatch i pre (captures y)). cbn [m_index m_text].
  split; [reflexivity|]. split; [exact Hpre|].
  cbn [match_all]. rewrite exec_from_unfold, Hm. cbn [m_index m_text].
  replace (endIndex y - i) with (length pre) by lia.
  assert (Hfirst : firstn (length pre) s = pre).
  { rewrite Hs at 1. rewrite firstn_app, Nat.sub_diag, firstn_all. simpl. apply app_nil_r. }
  rewrite Hfirst, Nat.sub_diag. cbn [skipn].
  destruct (length pre) as [|n] eqn:Hn; [lia|].
  rewrite <- Hn. f_equal. f_equal.
  rewrite Hs at 1. rewrite skipn_app, Nat.sub_diag, skipn_all. reflexivity.
Qed.


Lemma match_all_here_rest (r : regex) (i : nat) (s : jsstring) (y : MatchState) :
  matcher r (mkState i s []) Some = Some y ->
  skipn (length s - length (rest y)) s = rest y.
Proof.
  intros Hm. destruct (matcher_result_within _ _ _ Hm) as (pre & Hs & He).
  rewrite Hs at 1 2. rewrite length_app.
  replace (length pre + length (rest y) - length (rest y)) with (length pre) by lia.
  rewrite skipn_app, Nat.sub_diag, skipn_all. reflexivity.
Qed.

Lemma assemble_skip (i : nat) (c : char) (t : jsstring) (reps : list (Match * jsstring)) :
  (forall m rep reps', reps = (m, rep) :: reps' -> S i <= m_index m) ->
  assemble i (c :: t) reps = c :: assemble (S i) t reps.
Proof.
  destruct reps as [|[m rep] reps']; intros H; [reflexivity|].
  specialize (H m rep reps' eq_refl). cbn [assemble].
  replace (m_index m - i) with (S (m_index m - S i)) by lia. reflexivity.
Qed.

Lemma strip_line_comments_run (s after : jsstring) :
  comment_run s = Some after -> strip_line_comments s = strip_line_comments after.
Proof.
  intros Hrun. unfold strip_line_comments at 1. cbn [strip_runs]. rewrite Hrun.
  apply comment_run_shorter in Hrun. apply strip_runs_fuel; lia.
Qed.

Lemma strip_line_comments_keep (c : char) (t : jsstring) :
  comment_run (c :: t) = None -> strip_line_comments (c :: t) = c :: strip_line_comments t.
Proof.
  intros Hrun. unfold strip_line_comments at 1. cbn [strip_runs]. now rewrite Hrun.
Qed.

Lemma erase_runs (n : nat) :
  forall s, length s <= n ->
  forall fuel i, length s < fuel ->
    assemble i s (map (fun m => (m, [])) (match_all fuel commentRegex i s)) =
    strip_line_comments s.
Proof.
  induction n as [|n IH]; intros s Hn fuel i Hfuel.
  - destruct s; [|simpl in Hn; lia]. destruct fuel; [lia|]. reflexivity.
  - pose proof (comment_match i s) as Hrun.
    destruct (matcher commentRegex (mkState i s []) Some) as [y|] eqn:Hm; simpl in Hrun.
    + symmetry in Hrun. pose proof (@comment_run_shorter s (rest y) Hrun) as Hshort.
      destruct fuel as [|fuel]; [lia|].
      destruct (@match_all_here fuel commentRegex i s y Hm Hshort) as (m & Hi & Hlen & ->).
      cbn [map assemble]. rewrite Hi, Nat.sub_diag, Hlen. cbn [firstn app Nat.add].
      rewrite (@match_all_here_rest commentRegex i s y Hm).
      rewrite IH by lia. symmetry. now apply strip_line_comments_run.
    + destruct s as [|c t].
      * destruct fuel; [lia|]. reflexivity.
      * rewrite (@match_all_skip fuel commentRegex i c t Hm).
        rewrite assemble_skip.
        -- rewrite IH by (simpl in *; lia).
           symmetry. now apply strip_line_comments_keep.
        -- intros m rep reps' Hreps.
           destruct (match_all fuel commentRegex (S i) t) as [|m' ms] eqn:Hall; [discriminate|].
           apply match_all_index in Hall. injection Hreps as <- _ _. exact Hall.
Qed.

(** C5, as the code has it.  The pass takes out, left to right, every run that
    starts with a line break, goes on with any blanks and two slashes, and
    ends before the next line terminator, and leaves the rest of the text
    alone; a text that starts with two slashes keeps them. *)
Theorem line_comments_removed :
  (forall code, replace_str commentRegex [] code = strip_line_comments code) /\
  (forall body, strip_line_comments (str "//" ++ body) = str "//" ++ strip_line_comments body).
Proof.
  split.
  - intros code. unfold replace_str, matches.
    rewrite (map_ext _ (fun m => (m, @nil char))) by reflexivity.
    apply (erase_runs (n := length code)); lia.
  - intros body. reflexivity.
Qed.

(** C5, as the claim has it, fails on the first line of a file: nothing comes
    before the comment, no line break either, and the comment stays. *)
Lemma first_line_comment_kept :
  replace_str commentRegex [] (str "// note" ++ [LF] ++ str "x = 1;") =
  str "// note" ++ [LF] ++ str "x = 1;".
Proof. reflexivity. Qed.

Example line_comment_taken_out :
  replace_str commentRegex [] (str "a;" ++ [LF] ++ str "  // note" ++ [LF] ++ str "b;") =
  str "a;" ++ [LF] ++ str "b;".
Proof. reflexivity. Qed.

(** ** Any consumer *)

Section Backpressure.

Variable w : World.

(** On a file that cannot be read the actions go round in circles. *)
Lemma advance_unreadable (s : Stream) (filePath : jsstring) (d : nat) :
  ended s = false -> _headerWritten s = true ->
  nth_error (_files s) (_fileIndex s) = Some filePath ->
  readFileSync w filePath = None ->
  ended (Nat.iter d (advance w) s) = false.
Proof.
  intros He Hh Hn Hread.
  assert (H : ended (Nat.iter d (advance w) s) = false /\
              _headerWritten (Nat.iter d (advance w) s) = true /\
              nth_error (_files (Nat.iter d (advance w) s))
                (_fileIndex (Nat.iter d (advance w) s)) = Some filePath);
    [|apply H].
  induction d as [|d (He' & Hh' & Hn')]; [auto|].
  cbn [Nat.iter nat_rect]. change (nat_rect _ s (fun _ => advance w) d) with (Nat.iter d (advance w) s).
  rewrite (advance_file w _ He' Hh' Hn'), addFile_unreadable by assumption. auto.
Qed.

Lemma iter_advance_not_ended (d : nat) (s : Stream) :
  ended s = false -> ended (Nat.iter d (advance w) s) = true -> 0 < d.
Proof. destruct d; simpl; [congruence | lia]. Qed.

(** The loop, when the actions end within [d] steps and the fuel is at least
    [d]: it stops before the end, in a state the actions go through. *)
Lemma write_files_progress (d : nat) :
  forall (s : Stream) (fuel : nat) (ready : Consumer),
    _headerWritten s = true -> ended s = false ->
    ended (Nat.iter d (advance w) s) = true -> d <= fuel ->
    exists j s' b,
      write_files w fuel ready s = Some (s', b) /\ s' = Nat.iter j (advance w) s /\
      _headerWritten s' = true /\ ended s' = false /\
      (if b then j < d /\ nth_error (_files s') (_fileIndex s') = None else 0 < j < d).
Proof.
  induction d as [|d IH]; intros s fuel ready Hh He Hend Hfuel.
  - simpl in Hend. congruence.
  - destruct (nth_error (_files s) (_fileIndex s)) as [filePath|] eqn:Hn.
    + destruct fuel as [|fuel]; [lia|]. cbn [write_files]. rewrite Hn.
      rewrite Nat.iter_succ_r in Hend.
      destruct (readFileSync w filePath) as [code|] eqn:Hread.
      * pose proof (advance_file w s He Hh Hn) as Hadv.
        rewrite <- (addFile_state w ready) in Hadv.
        destruct (addFile_grows w ready filePath s) as (_ & Hh1 & He1).
        destruct (_addFile w ready filePath s) as [s1 more]. cbn [fst] in *.
        rewrite Hadv in Hend.
        assert (Hd : 0 < d) by (apply (@iter_advance_not_ended d s1); congruence).
        destruct more.
        -- destruct (IH s1 fuel ready) as (j & s' & b & Hw & Hs' & Hh' & He' & Hb);
             try congruence; try lia.
           exists (S j), s', b. rewrite Nat.iter_succ_r, Hadv.
           repeat split; try assumption. destruct b; [split; [lia | apply Hb] | lia].
        -- exists 1, s1, false. simpl. rewrite Hadv.
           repeat split; try congruence; lia.
      * exfalso. rewrite <- Nat.iter_succ_r in Hend.
        rewrite (@advance_unreadable s filePath (S d) He Hh Hn Hread) in Hend. discriminate.
    + exists 0, s, true. destruct fuel; simpl; rewrite Hn; repeat split; auto; lia.
Qed.

Lemma demand_progress (d : nat) (s : Stream) (fuel : nat) (ready : Consumer) :
  ended s = false -> ended (Nat.iter d (advance w) s) = true -> d <= fuel ->
  exists j, 0 < j <= d /\ demand w fuel ready s = Some (Nat.iter j (advance w) s).
Proof.
  intros He Hend Hfuel. unfold demand, _read, _continueProcessing. rewrite He.
  assert (Hloop : forall d0 s0, _headerWritten s0 = true -> ended s0 = false ->
            ended (Nat.iter d0 (advance w) s0) = true -> d0 <= fuel ->
            exists j, 0 < j <= d0 /\
              match write_files w fuel ready s0 with
              | Some (s1, true) => Some (push_null (fst (push ready (FOOTER w) s1)))
              | Some (s1, false) => Some s1
              | None => None
              end = Some (Nat.iter j (advance w) s0)).
  { intros d0 s0 Hh0 He0 Hend0 Hfuel0.
    destruct (@write_files_progress d0 s0 fuel ready Hh0 He0 Hend0 Hfuel0)
      as (j & s' & b & -> & Hs' & Hh' & He' & Hb).
    destruct b.
    - exists (S j). split; [lia|]. simpl. rewrite <- Hs'.
      now rewrite (advance_footer w s' He' Hh' (proj2 Hb)).
    - exists j. split; [lia|]. now rewrite Hs'. }
  destruct (_headerWritten s) eqn:Hh; cbn [negb].
  - now apply Hloop.
  - pose proof (advance_header w s He Hh) as Hadv.
    assert (Hd : 0 < d) by (now apply (@iter_advance_not_ended d s)).
    destruct d as [|d]; [lia|]. rewrite Nat.iter_succ_r, Hadv in Hend.
    unfold push at 1. cbn [fst snd].
    destruct (ready (length (pushed (set_headerWritten true s)))).
    + destruct (Hloop d (fst (push always (HEADER w) (set_headerWritten true s))))
        as (j & Hj & Hrun); try reflexivity; try assumption; try lia.
      exists (S j). split; [lia|]. rewrite Nat.iter_succ_r, Hadv. exact Hrun.
    + exists 1. split; [lia|]. simpl. now rewrite Hadv.
Qed.

Lemma demands_ended (n fuel : nat) (ready : Consumer) (s : Stream) :
  ended s = true -> demands w n fuel ready s = Some s.
Proof.
  intros He. induction n as [|n IH]; simpl; [reflexivity|].
  unfold demand. now rewrite He.
Qed.

(** When the actions end within [d] steps, [d] demand signals and fuel [d]
    get any consumer to the end. *)
Lemma demands_reach_end (d : nat) :
  forall (s : Stream) (n fuel : nat) (ready : Consumer),
    ended (Nat.iter d (advance w) s) = true -> d <= n -> d <= fuel ->
    demands w n fuel ready s = Some (Nat.iter d (advance w) s).
Proof.
  induction d as [d IH] using lt_wf_ind. intros s n fuel ready Hend Hn Hfuel.
  destruct (ended s) eqn:He.
  - rewrite iter_advance_ended by assumption. now apply demands_ended.
  - destruct (@demand_progress d s fuel ready He Hend Hfuel) as (j & Hj & Hdemand).
    destruct n as [|n]; [lia|]. cbn [demands]. rewrite Hdemand.
    replace d with (j + (d - j)) in Hend |- * by lia.
    rewrite iter_advance_add in Hend |- *.
    apply IH; [lia | exact Hend | lia | lia].
Qed.

(** Two runs that reach the end are in the same state. *)
Lemma ended_unique (s s1 s2 : Stream) (k1 k2 : nat) :
  s1 = Nat.iter k1 (advance w) s -> s2 = Nat.iter k2 (advance w) s ->
  ended s1 = true -> ended s2 = true -> s1 = s2.
Proof.
  assert (H : forall k k' t t', k <= k' -> t = Nat.iter k (advance w) s ->
            t' = Nat.iter k' (advance w) s -> ended t = true -> t = t').
  { intros k k' t t' Hk -> -> He.
    replace k' with (k + (k' - k)) by lia.
    rewrite (iter_advance_add w k (k' - k)).
    symmetry. now apply iter_advance_ended. }
  intros H1 H2 He1 He2. destruct (Nat.le_ge_cases k1 k2).
  - eapply H; eassumption.
  - symmetry. eapply H; eassumption.
Qed.

End Backpressure.

(** ** The layout of the output *)

Section Layout.

Variable w : World.

Lemma file_chunks_snoc (i : nat) (ps bs : list jsstring) (p b : jsstring) :
  length ps = length bs ->
  file_chunks w i (ps ++ [p]) (bs ++ [b]) =
  file_chunks w i ps bs ++ [file_chunk w (i + length ps) p b].
Proof.
  revert i bs. induction ps as [|q ps IH]; intros i [|c bs] Hlen; try discriminate.
  - simpl. now rewrite Nat.add_0_r.
  - cbn [file_chunks app length]. rewrite IH by (simpl in Hlen; lia).
    rewrite <- Nat.add_succ_comm. reflexivity.
Qed.

Lemma firstn_snoc (l : list jsstring) (i : nat) (p : jsstring) :
  nth_error l i = Some p -> firstn (S i) l = firstn i l ++ [p].
Proof.
  revert l. induction i as [|i IH]; intros [|q l] H; try discriminate.
  - injection H as ->. reflexivity.
  - change (q :: firstn (S i) l = q :: firstn i l ++ [p]). f_equal. now apply IH.
Qed.

Lemma laid_out_constructor (entry : jsstring) (options : Options) :
  laid_out w (constructor w entry options).
Proof.
  unfold laid_out. simpl. split; [repeat constructor; intros []|].
  split; [lia|]. split; [reflexivity|]. split; [discriminate|].
  now exists [].
Qed.

Lemma advance_laid_out (s : Stream) : laid_out w s -> laid_out w (advance w s).
Proof.
  intros Hlay. pose proof Hlay as (Hnd & Hle & Hh0 & Hend & bodies & Hlen & Hp).
  destruct (ended s) eqn:He.
  { now rewrite advance_ended. }
  destruct (_headerWritten s) eqn:Hh.
  - destruct (nth_error (_files s) (_fileIndex s)) as [filePath|] eqn:Hn.
    + rewrite (advance_file w s He Hh Hn).
      destruct (readFileSync w filePath) as [code|] eqn:Hread.
      * destruct (@addFile_readable w always filePath code s Hread)
          as (s1 & chunk & -> & (_ & (l & Hl & Hnd1 & _) & _) & Hi1 & Hh1 & Hp1 & He1 & _ & body & ->).
        unfold laid_out. cbn [push fst _files _fileIndex _headerWritten ended pushed].
        assert (Hn1 : nth_error (_files s1) (_fileIndex s) = Some filePath).
        { rewrite Hl, nth_error_app1; [exact Hn|]. apply nth_error_Some. congruence. }
        assert (Hlt : _fileIndex s < length (_files s1)).
        { apply nth_error_Some. congruence. }
        split; [auto|]. split; [lia|]. split; [congruence|]. split; [congruence|].
        exists (bodies ++ [body]). split; [rewrite length_app; simpl; lia|].
        assert (Hfirst : firstn (_fileIndex s) (_files s1) = firstn (_fileIndex s) (_files s)).
        { rewrite Hl, firstn_app.
          replace (_fileIndex s - length (_files s)) with 0 by lia.
          now rewrite firstn_O, app_nil_r. }
        rewrite (@indexOf_nth filePath (_files s1) (_fileIndex s) (Hnd1 Hnd) Hn1).
        rewrite Hp1, Hp, Hh1, He1, Hi1. rewrite ?Hh, ?He.
        rewrite !app_nil_r, <- app_assoc. f_equal.
        rewrite (@firstn_snoc (_files s1) (_fileIndex s) filePath Hn1), Hfirst.
        rewrite file_chunks_snoc by (rewrite length_firstn; lia).
        rewrite length_firstn.
        replace (0 + Nat.min (_fileIndex s) (length (_files s))) with (_fileIndex s) by lia.
        reflexivity.
      * rewrite addFile_unreadable by assumption. exact Hlay.
    + rewrite (advance_footer w s He Hh Hn). unfold laid_out. simpl.
      assert (Hfull : _fileIndex s = length (_files s)).
      { apply nth_error_None in Hn. lia. }
      split; [exact Hnd|]. split; [exact Hle|]. split; [congruence|]. split; [auto|].
      exists bodies. split; [exact Hlen|].
      rewrite Hp, Hh, app_nil_r, <- app_assoc. reflexivity.
  - rewrite (advance_header w s He Hh). unfold laid_out. simpl.
    specialize (Hh0 eq_refl).
    split; [exact Hnd|]. split; [exact Hle|]. split; [discriminate|]. split; [congruence|].
    exists bodies. split; [exact Hlen|].
    rewrite Hp, Hh0, He. rewrite Hh0 in Hlen. destruct bodies; [reflexivity | discriminate].
Qed.

Lemma iter_advance_laid_out (k : nat) (s : Stream) :
  laid_out w s -> laid_out w (Nat.iter k (advance w) s).
Proof.
  intros H. induction k as [|k IH]; simpl; [exact H | now apply advance_laid_out].
Qed.

(** C4.  A run that reaches the end with one consumer is matched by every
    other consumer: given enough demand signals it reaches the end too, and
    any of its runs that reaches the end is in the very same state: the same
    file list, hence the same identities, and the same chunks.  The chunks
    are the header, once, then one chunk per file of the list, in order and
    under the identity of its position, then the footer. *)
Theorem backpressure_robust (entry : jsstring) (options : Options)
    (ready1 ready2 : Consumer) (n1 fuel1 : nat) (s1 : Stream) :
  demands w n1 fuel1 ready1 (constructor w entry options) = Some s1 ->
  ended s1 = true ->
  (exists n2 fuel2, demands w n2 fuel2 ready2 (constructor w entry options) = Some s1) /\
  (forall n2 fuel2 s2,
     demands w n2 fuel2 ready2 (constructor w entry options) = Some s2 ->
     ended s2 = true -> s2 = s1) /\
  (exists bodies,
     length bodies = length (_files s1) /\
     pushed s1 = [HEADER w] ++ file_chunks w 0 (_files s1) bodies ++ [FOOTER w]).
Proof.
  intros Hrun Hend. apply demands_actions in Hrun as (k & Hk).
  split; [|split].
  - exists k, k. rewrite Hk. apply demands_reach_end; [congruence | lia | lia].
  - intros n2 fuel2 s2 Hrun2 Hend2. apply demands_actions in Hrun2 as (k2 & Hk2).
    eapply ended_unique; eassumption.
  - assert (Hlay : laid_out w s1).
    { rewrite Hk. apply iter_advance_laid_out, laid_out_constructor. }
    destruct Hlay as (_ & _ & _ & Hfull & bodies & Hlen & Hp).
    destruct (Hfull Hend) as (Hh & Hi).
    exists bodies. split; [congruence|].
    rewrite Hp, Hh, Hend, Hi, firstn_all. reflexivity.
Qed.

End Layout.

(** The three-module project, with a consumer that is always ready and with
    one that answers the header and every other push after it with
    backpressure. *)
Lemma backpressure_robust_witness :
  let W := Fixture.world_of Fixture.abc in
  demands W 4 10 Nat.odd (constructor W (str "/p/a.js") no_options) = Some Fixture.abc_done /\
  exists bodies,
    length bodies = 3 /\
    pushed Fixture.abc_done =
      [HEADER W] ++ file_chunks W 0 (_files Fixture.abc_done) bodies ++ [FOOTER W].
Proof.
  intros W.
  destruct (@backpressure_robust W (str "/p/a.js") no_options always Nat.odd 1 10
              Fixture.abc_done eq_refl eq_refl) as (_ & H2 & H3).
  split; [|exact H3].
  assert (exists s2, demands W 4 10 Nat.odd (constructor W (str "/p/a.js") no_options) = Some s2
                     /\ ended s2 = true) as (s2 & Hrun & Hend)
    by (eexists; split; vm_compute; reflexivity).
  rewrite Hrun. f_equal. exact (H2 4 10 s2 Hrun Hend).
Defined.

(** ** A project of one file *)

Section SingleFile.

Variable w : World.


End SingleFile.



(** ** Path tokens *)

Lemma GetSubstitution_plain (matched before after tmpl : jsstring) :
  ~ In DOLLAR tmpl -> GetSubstitution matched before after tmpl = tmpl.
Proof.
  induction tmpl as [|c t IH]; intros H; [reflexivity|].
  cbn [GetSubstitution]. destruct (N.eqb_spec c DOLLAR) as [->|_].
  - exfalso. apply H. now left.
  - rewrite IH; [reflexivity|]. intros H'. apply H. now right.
Qed.

(** With a replacement text without a dollar sign, every match of the pattern
    is replaced by that very text. *)
Lemma replace_str_plain (r : regex) (tmpl s : jsstring) :
  ~ In DOLLAR tmpl ->
  replace_str r tmpl s = assemble 0 s (map (fun m => (m, tmpl)) (matches r s)).
Proof.
  intros H. unfold replace_str. f_equal. apply map_ext. intros m.
  now rewrite GetSubstitution_plain.
Qed.

(** C6 fails on a file whose name holds a dollar sign and an ampersand: the
    relative path is that name, and the two accessor calls carry neither that
    path nor the same argument, as the pair stands, in a replacement text, for
    the matched token. *)
Lemma path_tokens_dollar :
  let W := Fixture.world_of Fixture.dollar in
  JSON_stringify W (path_relative W (path_dirname W (str "/p/out.js")) (str "/p/$&.js")) =
    [DQUOTE] ++ str "$&.js" ++ [DQUOTE] /\
  replace_path_tokens W Fixture.output_in_p (str "/p/$&.js") (str "__dirname + __filename") =
    str "__getDirname(" ++ [DQUOTE] ++ str "__dirname.js" ++ [DQUOTE] ++ str ") + " ++
    str "__getFilename(" ++ [DQUOTE] ++ str "__filename.js" ++ [DQUOTE] ++ str ")".
Proof. split; reflexivity. Qed.

(** On a file with a plain name the two calls carry the relative path. *)
Example path_tokens_plain :
  let W := Fixture.world_of
             (Fixture.mkProject [] [] [] [(str "/p", str "/p/lib/a.js", str "lib/a.js")]) in
  replace_path_tokens W Fixture.output_in_p (str "/p/lib/a.js") (str "__dirname + __filename") =
    str "__getDirname(" ++ [DQUOTE] ++ str "lib/a.js" ++ [DQUOTE] ++ str ") + " ++
    str "__getFilename(" ++ [DQUOTE] ++ str "lib/a.js" ++ [DQUOTE] ++ str ")".
Proof. reflexivity. Qed.

(** * More of the code *)

(** ** Lifting a relation from the steps to the runs *)

Section Lifting.

Variables (w : World) (R : Stream -> Stream -> Prop).

Hypothesis R_refl : forall s, R s s.
Hypothesis R_trans : forall s1 s2 s3, R s1 s2 -> R s2 s3 -> R s1 s3.
Hypothesis R_require : forall filePath s m, R s (fst (on_require w filePath s m)).
Hypothesis R_fileIndex : forall s, R s (set_fileIndex (S (_fileIndex s)) s).
Hypothesis R_headerWritten : forall s, R s (set_headerWritten true s).
Hypothesis R_push : forall s chunk, R s (fst (push always chunk s)).
Hypothesis R_push_null : forall s, R s (push_null s).
Hypothesis R_nextTick : forall s filePath, R s (nextTick_error filePath s).

Lemma addFile_related (filePath : jsstring) (s : Stream) :
  R s (fst (_addFile w always filePath s)).
Proof.
  unfold _addFile. destruct (readFileSync w filePath) as [code|]; [|apply R_nextTick].
  pose proof (replace_fn_state requireRegex (on_require w filePath)
                (set_fileIndex (S (_fileIndex s)) s) (replace_str commentRegex [] code)) as Hst.
  destruct (replace_fn _ _ _ _) as [s1 code1]. cbn [fst] in Hst.
  eapply R_trans; [apply (R_fileIndex s)|].
  eapply R_trans; [|apply R_push].
  rewrite Hst. apply call_replacer_preorder; auto.
Qed.

Lemma advance_related (s : Stream) : R s (advance w s).
Proof.
  unfold advance. destruct (ended s); [apply R_refl|].
  destruct (negb (_headerWritten s)).
  - eapply R_trans; [apply (R_headerWritten s) | apply R_push].
  - destruct (nth_error _ _); [apply addFile_related|].
    eapply R_trans; [apply R_push | apply R_push_null].
Qed.

Lemma iter_advance_related (k : nat) (s : Stream) : R s (Nat.iter k (advance w) s).
Proof.
  induction k as [|k IH]; simpl; [apply R_refl|].
  eapply R_trans; [exact IH | apply advance_related].
Qed.

Lemma demands_related (n fuel : nat) (ready : Consumer) (s s' : Stream) :
  demands w n fuel ready s = Some s' -> R s s'.
Proof. intros H. apply demands_actions in H as (k & ->). apply iter_advance_related. Qed.

End Lifting.

(** ** What a call site can do, with where the path comes from *)

Section Provenance.

Variable w : World.

Lemma on_require_cases (filePath : jsstring) (t : Stream) (m : Match) :
  on_require w filePath t m = (t, m_text m) \/
  exists p,
    resolves_to w filePath t m p /\ isCore w p = false /\
    ((native w p = true /\
      on_require w filePath t m =
        (set_addonsExcluded (_addonsExcluded t ++ [p]) t, m_text m)) \/
     (native w p = false /\ In p (_files t) /\
      on_require w filePath t m =
        (t, require_call (indexOf p (_files t)) (indexOf filePath (_files t)))) \/
     (native w p = false /\ ~ In p (_files t) /\
      (forall excl, excludeFiles (_options t) = Some excl -> ~ In p excl) /\
      on_require w filePath t m =
        (set_files (_files t ++ [p]) t,
         require_call (Z.of_nat (length (_files t))) (indexOf filePath (_files t ++ [p]))))).
Proof.
  destruct (isCore w (group 2 m) && negb (browser (_options t))) eqn:H1.
  { left. unfold on_require. now rewrite H1. }
  destruct (excludeNodeModules (_options t)
            && match exec pathPrefixRegex
                       (replace_first [BACKSLASH; BACKSLASH] [BACKSLASH] (group 2 m)) with
               | None => true
               | Some _ => false
               end) eqn:H2.
  { left. unfold on_require. cbv zeta. now rewrite H1, H2. }
  destruct (resolve_sync w (replace_first [BACKSLASH; BACKSLASH] [BACKSLASH] (group 2 m))
              (mkResolveOpts (path_dirname w filePath) [[]; str ".js"; str ".json"; str ".node"]
                 (browser (_options t)))) as [p|] eqn:H3.
  2:{ left. unfold on_require. cbv zeta. now rewrite H1, H2, H3. }
  assert (Hres : resolves_to w filePath t m p) by (repeat split; assumption).
  rewrite (on_require_resolved Hres). unfold native.
  destruct (isCore w p) eqn:Hcore; [now left|].
  destruct (jseqb (toLowerCase w (path_extname w p)) (str ".node")) eqn:Hnode.
  { right. exists p. split; [exact Hres|]. split; [exact Hcore|]. left. now split. }
  assert (Hlen : (Z.of_nat (length (_files t ++ [p])) - 1)%Z = Z.of_nat (length (_files t))).
  { rewrite length_app. simpl length. lia. }
  rewrite Hlen.
  destruct (indexOf p (_files t) <? 0)%Z eqn:Hidx.
  2:{ apply indexOf_present in Hidx. right. exists p. split; [exact Hres|].
      split; [exact Hcore|]. right. left. now repeat split. }
  apply indexOf_absent in Hidx.
  destruct (excludeFiles (_options t)) as [excl|] eqn:Hex.
  - destruct (indexOf p excl <? 0)%Z eqn:Hexcl; [|now left].
    apply indexOf_absent in Hexcl.
    right. exists p. split; [exact Hres|]. split; [exact Hcore|]. right. right.
    repeat split; try assumption. intros excl' [= <-]. exact Hexcl.
  - right. exists p. split; [exact Hres|]. split; [exact Hcore|]. right. right.
    repeat split; try assumption. discriminate.
Qed.

End Provenance.

Section Registered.

Variable w : World.

Lemma registers_refl (s : Stream) : registers w s s.
Proof.
  split; [reflexivity|]. split; exists []; rewrite app_nil_r; auto.
Qed.

Lemma registers_trans (s1 s2 s3 : Stream) :
  registers w s1 s2 -> registers w s2 s3 -> registers w s1 s3.
Proof.
  intros (Ho1 & (l1 & Hf1 & Hl1) & (a1 & Ha1 & Hn1)) (Ho2 & (l2 & Hf2 & Hl2) & (a2 & Ha2 & Hn2)).
  split; [congruence|]. split.
  - exists (l1 ++ l2). split; [now rewrite Hf2, Hf1, app_assoc|].
    apply Forall_app. split; [exact Hl1|]. now rewrite Ho1 in Hl2.
  - exists (a1 ++ a2). split; [now rewrite Ha2, Ha1, app_assoc|].
    apply Forall_app. now split.
Qed.

Lemma resolves_to_answered (filePath : jsstring) (t : Stream) (m : Match) (p : jsstring) :
  resolves_to w filePath t m p -> answered w p.
Proof. intros (_ & _ & H). eexists _, _. exact H. Qed.

Lemma on_require_registers (filePath : jsstring) (t : Stream) (m : Match) :
  registers w t (fst (on_require w filePath t m)).
Proof.
  destruct (on_require_cases w filePath t m)
    as [->|(p & Hres & Hcore & [(Hnat & ->)|[(Hnat & Hin & ->)|(Hnat & Hnew & Hexcl & ->)]])];
    try apply registers_refl; cbn [fst].
  - split; [reflexivity|]. split.
    + exists []. simpl. rewrite app_nil_r. auto.
    + exists [p]. split; [reflexivity|]. repeat constructor; try assumption.
      eapply resolves_to_answered; eassumption.
  - split; [reflexivity|]. split.
    + exists [p]. split; [reflexivity|]. repeat constructor; try assumption.
      eapply resolves_to_answered; eassumption.
    + exists []. simpl. rewrite app_nil_r. auto.
Qed.

Lemma demands_registers (n fuel : nat) (ready : Consumer) (s s' : Stream) :
  demands w n fuel ready s = Some s' -> registers w s s'.
Proof.
  apply (@demands_related w (registers w)).
  - apply registers_refl.
  - apply registers_trans.
  - apply on_require_registers.
  - intros s0. exact (registers_refl s0).
  - intros s0. exact (registers_refl s0).
  - intros s0 c. exact (registers_refl s0).
  - intros s0. exact (registers_refl s0).
  - intros s0 p. exact (registers_refl s0).
Qed.

(** X1.  In every state of a run the file list is the entry path followed by
    answers of the resolver, none of which is a core module, a native add-on
    or a file of the exclude list as the constructor normalized it. *)
Theorem files_are_resolved (entry : jsstring) (options : Options)
    (ready : Consumer) (n fuel : nat) (s : Stream) :
  demands w n fuel ready (constructor w entry options) = Some s ->
  exists l,
    _files s = entry :: l /\
    Forall (fun p => answered w p /\ isCore w p = false /\ native w p = false /\
                     forall excl, excludeFiles options = Some excl ->
                                  ~ In p (map (path_resolve w) excl)) l.
Proof.
  intros Hrun. apply demands_registers in Hrun as (_ & (l & Hl & Hall) & _).
  exists l. split; [exact Hl|].
  eapply Forall_impl; [|exact Hall]. cbn beta.
  intros p (Ha & Hc & Hn & Hex). repeat split; try assumption.
  intros excl Hopt. apply Hex. simpl. now rewrite Hopt.
Qed.

(** X2.  The add-on list of every state of a run holds only answers of the
    resolver that are native add-ons and no core modules, and a run only
    appends to it.  A call site that resolves to a native add-on appends the
    path to the list, also when the path is in it already, keeps its text and
    leaves the file list alone. *)
Theorem addons_are_native (entry : jsstring) (options : Options)
    (ready : Consumer) (n fuel : nat) (s : Stream) :
  demands w n fuel ready (constructor w entry options) = Some s ->
  Forall (fun p => answered w p /\ isCore w p = false /\ native w p = true)
    (_addonsExcluded s) /\
  (forall n' fuel' ready' s',
     demands w n' fuel' ready' s = Some s' ->
     exists a, _addonsExcluded s' = _addonsExcluded s ++ a) /\
  (forall t filePath m p,
     resolves_to w filePath t m p -> isCore w p = false -> native w p = true ->
     on_require w filePath t m =
       (set_addonsExcluded (_addonsExcluded t ++ [p]) t, m_text m)).
Proof.
  intros Hrun. apply demands_registers in Hrun as (_ & _ & (a & Ha & Hall)).
  split; [now rewrite Ha|]. split.
  - intros n' fuel' ready' s' H. apply demands_registers in H as (_ & _ & (a' & Ha' & _)).
    now exists a'.
  - intros t filePath m p Hres Hcore Hnat. rewrite (on_require_resolved Hres), Hcore.
    unfold native in Hnat. now rewrite Hnat.
Qed.

(** X3.  When the list holds no path twice and the file being rewritten is at
    position [k], a call site either keeps its text or becomes
    [__require(i,k)], where [i] is the position, in the list as the call site
    leaves it, of the path the resolver answered; the list still holds no path
    twice. *)
Theorem references_point_into_list (filePath : jsstring) (t : Stream) (m : Match) (k : nat) :
  NoDup (_files t) ->
  nth_error (_files t) k = Some filePath ->
  let r := on_require w filePath t m in
  NoDup (_files (fst r)) /\
  (snd r = m_text m \/
   exists i p,
     resolves_to w filePath t m p /\
     nth_error (_files (fst r)) i = Some p /\
     snd r = require_call (Z.of_nat i) (Z.of_nat k)).
Proof.
  intros Hnd Hk r. subst r.
  assert (Hfk : indexOf filePath (_files t) = Z.of_nat k) by (now apply indexOf_nth).
  assert (Hin : In filePath (_files t)) by (eapply nth_error_In; eassumption).
  destruct (on_require_cases w filePath t m)
    as [->|(p & Hres & Hcore & [(Hnat & ->)|[(Hnat & Hp & ->)|(Hnat & Hnew & Hexcl & ->)]])];
    cbn [fst snd set_files set_addonsExcluded _files].
  - auto.
  - auto.
  - split; [exact Hnd|]. right.
    destruct (indexOf_from_present 0 p (_files t) Hp) as (i & Hi & Hn & _).
    exists i, p. split; [exact Hres|]. split; [exact Hn|].
    unfold indexOf at 1. rewrite Hi, Hfk. reflexivity.
  - split.
    + apply NoDup_app; [assumption | repeat constructor; intros [] |].
      intros x Hx [<-|[]]. contradiction.
    + right. exists (length (_files t)), p. split; [exact Hres|]. split.
      * rewrite nth_error_app2, Nat.sub_diag by lia. reflexivity.
      * rewrite indexOf_app_present, Hfk by assumption. reflexivity.
Qed.

End Registered.

(** The project with an add-on: the add-on is listed each time it is met, and
    the file list has the entry and [b] only. *)
Lemma files_are_resolved_witness :
  exists l,
    _files Fixture.with_addon_done = str "/p/a.js" :: l /\
    Forall (fun p => native (Fixture.world_of Fixture.with_addon) p = false) l.
Proof.
  destruct (@files_are_resolved (Fixture.world_of Fixture.with_addon) (str "/p/a.js") no_options
              always 1 10 Fixture.with_addon_done eq_refl) as (l & Hl & Hall).
  exists l. split; [exact Hl|]. eapply Forall_impl; [|exact Hall].
  cbn beta. tauto.
Defined.

Lemma addons_are_native_witness :
  _addonsExcluded Fixture.with_addon_done = [str "/p/x.node"; str "/p/x.node"] /\
  Forall (fun p => native (Fixture.world_of Fixture.with_addon) p = true)
    (_addonsExcluded Fixture.with_addon_done).
Proof.
  destruct (@addons_are_native (Fixture.world_of Fixture.with_addon) (str "/p/a.js") no_options
              always 1 10 Fixture.with_addon_done eq_refl) as (Hall & _ & _).
  split; [reflexivity|]. eapply Forall_impl; [|exact Hall]. cbn beta. tauto.
Defined.

Lemma references_point_into_list_witness :
  let W := Fixture.world_of Fixture.abc in
  let r := on_require W (str "/p/b.js")
             (set_fileIndex 2 (set_files [str "/p/a.js"; str "/p/b.js"]
                                 (constructor W (str "/p/a.js") no_options)))
             (Fixture.call_site (str "require('./c')")) in
  NoDup (_files (fst r)) /\ snd r = str "__require(2,1)".
Proof.
  intros W r.
  assert (Hnd : NoDup [str "/p/a.js"; str "/p/b.js"]).
  { repeat constructor; simpl; intros H; repeat (destruct H as [H|H]; [discriminate|]); exact H. }
  destruct (@references_point_into_list W (str "/p/b.js")
              (set_fileIndex 2 (set_files [str "/p/a.js"; str "/p/b.js"]
                                  (constructor W (str "/p/a.js") no_options)))
              (Fixture.call_site (str "require('./c')")) 1 Hnd eq_refl) as (H1 & _).
  split; [exact H1 | reflexivity].
Defined.

(** ** Nothing is taken back *)

Section Monotone.

Variable w : World.

Lemma extends_refl (s : Stream) : extends s s.
Proof.
  repeat split; try (exists []; now rewrite app_nil_r); auto.
Qed.

Lemma extends_trans (s1 s2 s3 : Stream) : extends s1 s2 -> extends s2 s3 -> extends s1 s3.
Proof.
  intros ((c1 & Hc1) & (e1 & He1) & (l1 & Hl1) & (a1 & Ha1) & Hi1 & Hh1 & Hd1 & Ho1)
         ((c2 & Hc2) & (e2 & He2) & (l2 & Hl2) & (a2 & Ha2) & Hi2 & Hh2 & Hd2 & Ho2).
  split; [exists (c1 ++ c2); now rewrite Hc2, Hc1, app_assoc|].
  split; [exists (e1 ++ e2); now rewrite He2, He1, app_assoc|].
  split; [exists (l1 ++ l2); now rewrite Hl2, Hl1, app_assoc|].
  split; [exists (a1 ++ a2); now rewrite Ha2, Ha1, app_assoc|].
  split; [lia|]. split; [auto|]. split; [auto|]. congruence.
Qed.

Lemma on_require_extends (filePath : jsstring) (t : Stream) (m : Match) :
  extends t (fst (on_require w filePath t m)).
Proof.
  destruct (on_require_cases w filePath t m)
    as [->|(p & _ & _ & [(_ & ->)|[(_ & _ & ->)|(_ & _ & _ & ->)]])];
    try apply extends_refl; cbn [fst];
    repeat split; simpl; auto;
    try (exists []; now rewrite app_nil_r); now exists [p].
Qed.

(** X4.  Whatever the state a run starts from, it takes nothing back: the
    chunks pushed, the errors scheduled, the file list and the add-on list
    only grow at their ends, the cursor never goes back, the header flag and
    the end of the stream are for good, the options stay what they are. *)
Theorem run_extends (n fuel : nat) (ready : Consumer) (s s' : Stream) :
  demands w n fuel ready s = Some s' ->
  (exists chunks, pushed s' = pushed s ++ chunks) /\
  (exists errors, errorTicks s' = errorTicks s ++ errors) /\
  (exists l, _files s' = _files s ++ l) /\
  (exists a, _addonsExcluded s' = _addonsExcluded s ++ a) /\
  _fileIndex s <= _fileIndex s' /\
  (_headerWritten s = true -> _headerWritten s' = true) /\
  (ended s = true -> ended s' = true) /\
  _options s' = _options s.
Proof.
  apply (@demands_related w extends).
  - apply extends_refl.
  - apply extends_trans.
  - apply on_require_extends.
  - intros s0. repeat split; simpl; auto; exists []; now rewrite app_nil_r.
  - intros s0. repeat split; simpl; auto; exists []; now rewrite app_nil_r.
  - intros s0 c. repeat split; simpl; auto; try (exists []; now rewrite app_nil_r).
    now exists [c].
  - intros s0. repeat split; simpl; auto; exists []; now rewrite app_nil_r.
  - intros s0 p. repeat split; simpl; auto; try (exists []; now rewrite app_nil_r).
    now exists [p].
Qed.

End Monotone.

(** Two demand signals on the three-module project, the first one stopped by
    backpressure after the header: the second one only adds to what there
    was. *)
Lemma run_extends_witness :
  let W := Fixture.world_of Fixture.abc in
  exists s s',
    demands W 1 10 Nat.odd (constructor W (str "/p/a.js") no_options) = Some s /\
    demands W 1 10 Nat.odd s = Some s' /\
    pushed s = [str "HEAD;"] /\
    exists chunks, pushed s' = pushed s ++ chunks.
Proof.
  intros W. eexists. eexists.
  split; [vm_compute; reflexivity|].
  match goal with
  | |- demands W 1 10 Nat.odd ?s = Some ?s' /\ _ =>
      assert (Hrun : demands W 1 10 Nat.odd s = Some s') by (vm_compute; reflexivity)
  end.
  split; [exact Hrun|]. split; [reflexivity|].
  exact (proj1 (@run_extends W 1 10 Nat.odd _ _ Hrun)).
Defined.

(** ** The output so far *)

Section Partial.

Variable w : World.


End Partial.


(** ** The end, or an error *)

Section Health.

Variable w : World.

Lemma healthy_constructor (entry : jsstring) (options : Options) :
  healthy w (constructor w entry options).
Proof. split; [intros k p Hk; simpl in Hk; lia | now left]. Qed.

Lemma advance_healthy (s : Stream) :
  laid_out w s -> healthy w s -> healthy w (advance w s).
Proof.
  intros (_ & Hle & _) Hhealthy. pose proof Hhealthy as (Hread & Herr).
  destruct (ended s) eqn:He; [now rewrite advance_ended|].
  destruct (_headerWritten s) eqn:Hh.
  - destruct (nth_error (_files s) (_fileIndex s)) as [filePath|] eqn:Hn.
    + assert (Hlt : _fileIndex s < length (_files s)) by (apply nth_error_Some; congruence).
      rewrite (advance_file w s He Hh Hn).
      destruct (readFileSync w filePath) as [code|] eqn:Hcode.
      * destruct (@addFile_readable w always filePath code s Hcode)
          as (s1 & chunk & -> & (_ & (l & Hl & _) & _) & Hi1 & Hh1 & _ & He1 & Ht1 & _).
        split; cbn [push fst _files _fileIndex errorTicks ended _headerWritten].
        -- intros k p Hk Hp. rewrite Hi1 in Hk. rewrite Hl, nth_error_app1 in Hp by lia.
           destruct (Nat.eq_dec k (_fileIndex s)) as [->|Hne].
           ++ rewrite Hn in Hp. injection Hp as <-. congruence.
           ++ apply (Hread k p); [lia | exact Hp].
        -- left. rewrite Ht1. destruct Herr as [Hnil|(_ & _ & p & Hp & Hnone & _)]; [exact Hnil|].
           injection Hp as <-. congruence.
      * rewrite addFile_unreadable by assumption. split; [exact Hread|]. right.
        cbn [fst nextTick_error ended _headerWritten _files _fileIndex errorTicks].
        split; [exact He|]. split; [exact Hh|]. exists filePath.
        split; [exact Hn|]. split; [exact Hcode|].
        apply Forall_app. split; [|repeat constructor].
        destruct Herr as [->|(_ & _ & p & Hp & _ & Hall)]; [constructor|].
        injection Hp as <-. exact Hall.
    + rewrite (advance_footer w s He Hh Hn). split; [exact Hread|]. left.
      destruct Herr as [Hnil|(_ & _ & p & Hp & _)]; [exact Hnil | congruence].
  - rewrite (advance_header w s He Hh). split; [exact Hread|]. left.
    destruct Herr as [Hnil|(_ & Hh' & _)]; [exact Hnil | congruence].
Qed.

Lemma iter_advance_healthy (k : nat) (s : Stream) :
  laid_out w s -> healthy w s -> healthy w (Nat.iter k (advance w) s).
Proof.
  intros Hlay Hhealthy. induction k as [|k IH]; simpl; [exact Hhealthy|].
  apply advance_healthy; [now apply iter_advance_laid_out | exact IH].
Qed.

(** A stream held on a file that cannot be read stays where it is. *)
Lemma iter_advance_held (s : Stream) (filePath : jsstring) (d : nat) :
  ended s = false -> _headerWritten s = true ->
  nth_error (_files s) (_fileIndex s) = Some filePath ->
  readFileSync w filePath = None ->
  ended (Nat.iter d (advance w) s) = false /\
  _files (Nat.iter d (advance w) s) = _files s /\
  _fileIndex (Nat.iter d (advance w) s) = _fileIndex s.
Proof.
  intros He Hh Hn Hread.
  assert (H : ended (Nat.iter d (advance w) s) = false /\
              _headerWritten (Nat.iter d (advance w) s) = true /\
              _files (Nat.iter d (advance w) s) = _files s /\
              _fileIndex (Nat.iter d (advance w) s) = _fileIndex s).
  { induction d as [|d (He' & Hh' & Hf' & Hi')]; [auto|].
    cbn [Nat.iter nat_rect].
    change (nat_rect _ s (fun _ => advance w) d) with (Nat.iter d (advance w) s).
    assert (Hn' : nth_error (_files (Nat.iter d (advance w) s))
                    (_fileIndex (Nat.iter d (advance w) s)) = Some filePath)
      by (now rewrite Hf', Hi').
    rewrite (advance_file w _ He' Hh' Hn'), addFile_unreadable by assumption. auto. }
  tauto.
Qed.

(** X6.  A run that has ended has scheduled no error, and every file of its
    list could be read.  A run that has scheduled an error has not ended and
    never will: it is held on one file that cannot be read, and every error
    it scheduled is about that file. *)
Theorem end_or_error (entry : jsstring) (options : Options)
    (ready : Consumer) (n fuel : nat) (s : Stream) :
  demands w n fuel ready (constructor w entry options) = Some s ->
  (ended s = true ->
   errorTicks s = [] /\ forall p, In p (_files s) -> readFileSync w p <> None) /\
  (errorTicks s <> [] ->
   ended s = false /\
   exists p,
     nth_error (_files s) (_fileIndex s) = Some p /\ readFileSync w p = None /\
     Forall (eq p) (errorTicks s) /\
     forall n' fuel' ready' s',
       demands w n' fuel' ready' s = Some s' -> ended s' = false).
Proof.
  intros Hrun. apply demands_actions in Hrun as (k & ->).
  pose proof (@iter_advance_laid_out w k _ (laid_out_constructor w entry options)) as Hlay.
  pose proof (@iter_advance_healthy k _ (laid_out_constructor w entry options)
                (healthy_constructor entry options)) as (Hread & Herr).
  set (s := Nat.iter k (advance w) (constructor w entry options)) in *.
  split.
  - intros He. destruct Hlay as (_ & _ & _ & Hend & _). destruct (Hend He) as (_ & Hfull).
    split.
    + destruct Herr as [Hnil|(He' & _)]; [exact Hnil | congruence].
    + intros p Hin. apply In_nth_error in Hin as (j & Hj).
      apply (Hread j p); [|exact Hj]. rewrite Hfull. apply nth_error_Some. congruence.
  - intros Hticks. destruct Herr as [Hnil|(He & Hh & p & Hp & Hnone & Hall)]; [contradiction|].
    split; [exact He|]. exists p. repeat split; try assumption.
    intros n' fuel' ready' s' Hrun'. apply demands_actions in Hrun' as (d & ->).
    now apply (@iter_advance_held s p d).
Qed.

(** X7.  The statistics along a run: [getStats] throws on the stream as the
    constructor leaves it; it returns the two lists on a stream that has
    ended; and once an error is scheduled it throws, after any number of
    further demand signals. *)
Theorem getStats_along_run (entry : jsstring) (options : Options)
    (ready : Consumer) (n fuel : nat) (s : Stream) :
  demands w n fuel ready (constructor w entry options) = Some s ->
  getStats (constructor w entry options) = inl StatisticsNotYetAvailable /\
  (ended s = true -> getStats s = inr (_files s, _addonsExcluded s)) /\
  (errorTicks s <> [] ->
   forall n' fuel' ready' s',
     demands w n' fuel' ready' s = Some s' ->
     getStats s' = inl StatisticsNotYetAvailable).
Proof.
  intros Hrun. apply demands_actions in Hrun as (k & ->).
  pose proof (@iter_advance_laid_out w k _ (laid_out_constructor w entry options)) as Hlay.
  pose proof (@iter_advance_healthy k _ (laid_out_constructor w entry options)
                (healthy_constructor entry options)) as (_ & Herr).
  set (s := Nat.iter k (advance w) (constructor w entry options)) in *.
  split; [reflexivity|]. split.
  - intros He. destruct Hlay as (_ & _ & _ & Hend & _). destruct (Hend He) as (_ & Hfull).
    unfold getStats. rewrite Hfull, Nat.ltb_irrefl. reflexivity.
  - intros Hticks n' fuel' ready' s' Hrun'.
    destruct Herr as [Hnil|(He & Hh & p & Hp & Hnone & _)]; [contradiction|].
    apply demands_actions in Hrun' as (d & ->).
    destruct (@iter_advance_held s p d He Hh Hp Hnone) as (_ & Hf & Hi).
    unfold getStats. rewrite Hf, Hi.
    replace (_fileIndex s <? length (_files s)) with true; [reflexivity|].
    symmetry. apply Nat.ltb_lt, nth_error_Some. congruence.
Qed.

End Health.

(** The three-module project at its end: no error, and its three files can
    be read. *)
Lemma end_or_error_witness :
  errorTicks Fixture.abc_done = [] /\
  forall p, In p (_files Fixture.abc_done) ->
            readFileSync (Fixture.world_of Fixture.abc) p <> None.
Proof.
  exact (proj1 (@end_or_error (Fixture.world_of Fixture.abc) (str "/p/a.js") no_options
                  always 1 10 Fixture.abc_done eq_refl) eq_refl).
Defined.

(** The project whose entry file is missing, after the first error: three
    more demand signals, and the statistics are still not there. *)
Lemma getStats_along_run_witness :
  errorTicks Fixture.missing_failed = [str "/p/a.js"] /\
  exists s',
    demands (Fixture.world_of Fixture.missing) 3 10 always Fixture.missing_failed = Some s' /\
    getStats s' = inl StatisticsNotYetAvailable.
Proof.
  split; [reflexivity|].
  assert (Hne : errorTicks Fixture.missing_failed <> []) by discriminate.
  eexists. split; [vm_compute; reflexivity|].
  refine (proj2 (proj2 (@getStats_along_run (Fixture.world_of Fixture.missing) (str "/p/a.js")
                          no_options always 1 10 Fixture.missing_failed eq_refl))
            Hne 3 10 always _ _).
  vm_compute. reflexivity.
Defined.

(** ** One call of [_read] *)

Section Protocol.

Variable w : World.

Lemma write_files_protocol (fuel : nat) (ready : Consumer) :
  forall (s s' : Stream) (b : bool),
    ended s = false ->
    write_files w fuel ready s = Some (s', b) ->
    exists chunks,
      pushed s' = pushed s ++ chunks /\ ended s' = false /\
      (forall k, S k < length chunks -> ready (length (pushed s) + k) = true) /\
      (if b then
         errorTicks s' = errorTicks s /\
         forall k, k < length chunks -> ready (length (pushed s) + k) = true
       else
         (exists p, errorTicks s' = errorTicks s ++ [p] /\ readFileSync w p = None /\
                    forall k, k < length chunks -> ready (length (pushed s) + k) = true) \/
         (errorTicks s' = errorTicks s /\ chunks <> [] /\
          ready (length (pushed s) + (length chunks - 1)) = false)).
Proof.
  induction fuel as [|fuel IH]; intros s s' b He; cbn [write_files];
    destruct (nth_error (_files s) (_fileIndex s)) as [filePath|] eqn:Hn; try discriminate.
  - intros [= <- <-]. exists []. rewrite app_nil_r. simpl.
    repeat split; auto; intros k Hk; lia.
  - destruct (readFileSync w filePath) as [code|] eqn:Hcode.
    + destruct (@addFile_readable w ready filePath code s Hcode)
        as (s1 & chunk & -> & _ & _ & _ & Hp1 & He1 & Ht1 & _).
      unfold push at 1. rewrite Hp1.
      destruct (ready (length (pushed s))) eqn:Hready.
      * intros Hw. apply IH in Hw; [|cbn [ended]; congruence].
        destruct Hw as (chunks & Hp & He' & Hbut & Hb).
        cbn [pushed errorTicks] in Hp, Hbut, Hb. rewrite ?Hp1, ?Ht1 in Hp, Hbut, Hb.
        rewrite length_app in Hbut, Hb. cbn [length] in Hbut, Hb.
        exists (chunk :: chunks). split; [now rewrite Hp, <- app_assoc|].
        split; [exact He'|]. split.
        -- intros [|k] Hk; [now rewrite Nat.add_0_r|].
           replace (length (pushed s) + S k) with (length (pushed s) + 1 + k) by lia.
           apply Hbut. simpl in Hk. lia.
        -- assert (Hall : (forall k, k < length chunks ->
                              ready (length (pushed s) + 1 + k) = true) ->
                          forall k, k < length (chunk :: chunks) ->
                              ready (length (pushed s) + k) = true).
           { intros H [|k] Hk; [now rewrite Nat.add_0_r|].
             replace (length (pushed s) + S k) with (length (pushed s) + 1 + k) by lia.
             apply H. simpl in Hk. lia. }
           destruct b.
           ++ destruct Hb as (Ht & Hr). rewrite ?Ht1 in Ht. split; [exact Ht | now apply Hall].
           ++ destruct Hb as [(p & Ht & Hnone & Hr)|(Ht & Hne & Hlast)].
              ** rewrite ?Ht1 in Ht. left. exists p. repeat split; try assumption. now apply Hall.
              ** rewrite ?Ht1 in Ht. right. split; [exact Ht|]. split; [discriminate|].
                 destruct chunks as [|c chunks]; [contradiction|].
                 cbn [length] in *. rewrite <- Hlast. f_equal. lia.
      * intros [= <- <-]. exists [chunk]. cbn [pushed ended errorTicks length].
        rewrite ?Hp1, ?He1, ?Ht1. split; [reflexivity|]. split; [exact He|].
        split; [intros k Hk; lia|]. right. split; [reflexivity|]. split; [discriminate|].
        now rewrite Nat.add_0_r.
    + rewrite addFile_unreadable by assumption. intros [= <- <-].
      exists []. rewrite app_nil_r. cbn [nextTick_error pushed ended errorTicks length].
      split; [reflexivity|]. split; [exact He|]. split; [intros k Hk; lia|].
      left. exists filePath. repeat split; auto. intros k Hk. lia.
  - intros [= <- <-]. exists []. rewrite app_nil_r. simpl.
    repeat split; auto; intros k Hk; lia.
Qed.

(** X8.  One call of [_read] on a stream that has not ended pushes its chunks
    one after the other, and goes on only while the consumer answers that it
    is ready: every push but the last one was answered so.  The call returns
    for one of three reasons and says which: the footer is out and the stream
    has ended; or a file could not be read, one error is scheduled, and no
    push was refused; or the last push was answered with backpressure.  It
    schedules at most one error. *)
Theorem read_stops_for_a_reason (fuel : nat) (ready : Consumer) (s s' : Stream) :
  ended s = false ->
  _read w fuel ready s = Some s' ->
  exists chunks,
    pushed s' = pushed s ++ chunks /\
    (forall k, S k < length chunks -> ready (length (pushed s) + k) = true) /\
    ((ended s' = true /\ errorTicks s' = errorTicks s /\
      exists before, chunks = before ++ [FOOTER w]) \/
     (ended s' = false /\
      (exists p, errorTicks s' = errorTicks s ++ [p] /\ readFileSync w p = None) /\
      forall k, k < length chunks -> ready (length (pushed s) + k) = true) \/
     (ended s' = false /\ errorTicks s' = errorTicks s /\ chunks <> [] /\
      ready (length (pushed s) + (length chunks - 1)) = false)).
Proof.
  intros He. unfold _read, _continueProcessing.
  assert (Hloop : forall s0 s1,
            ended s0 = false ->
            match write_files w fuel ready s0 with
            | Some (s2, true) => Some (push_null (fst (push ready (FOOTER w) s2)))
            | Some (s2, false) => Some s2
            | None => None
            end = Some s1 ->
            exists chunks,
              pushed s1 = pushed s0 ++ chunks /\
              (forall k, S k < length chunks -> ready (length (pushed s0) + k) = true) /\
              ((ended s1 = true /\ errorTicks s1 = errorTicks s0 /\
                exists before, chunks = before ++ [FOOTER w]) \/
               (ended s1 = false /\
                (exists p, errorTicks s1 = errorTicks s0 ++ [p] /\ readFileSync w p = None) /\
                forall k, k < length chunks -> ready (length (pushed s0) + k) = true) \/
               (ended s1 = false /\ errorTicks s1 = errorTicks s0 /\ chunks <> [] /\
                ready (length (pushed s0) + (length chunks - 1)) = false))).
  { intros s0 s1 He0. destruct (write_files w fuel ready s0) as [[s2 b]|] eqn:Hw; [|discriminate].
    apply write_files_protocol in Hw; [|exact He0].
    destruct Hw as (chunks & Hp & He2 & Hbut & Hb). destruct b.
    - intros [= <-]. destruct Hb as (Ht & Hall).
      exists (chunks ++ [FOOTER w]). cbn [push_null push fst pushed ended errorTicks].
      split; [now rewrite Hp, <- app_assoc|]. split.
      + intros k Hk. apply Hall. rewrite length_app in Hk. simpl in Hk. lia.
      + left. split; [reflexivity|]. split; [exact Ht|]. now exists chunks.
    - intros [= <-]. exists chunks. split; [exact Hp|]. split; [exact Hbut|].
      destruct Hb as [(p & Ht & Hnone & Hall)|(Ht & Hne & Hlast)].
      + right. left. split; [exact He2|]. split; [now exists p | exact Hall].
      + right. right. auto. }
  destruct (_headerWritten s) eqn:Hh; cbn [negb].
  - now apply Hloop.
  - unfold push at 1. cbn [pushed set_headerWritten].
    destruct (ready (length (pushed s))) eqn:Hready.
    + intros H. apply Hloop in H; [|exact He].
      destruct H as (chunks & Hp & Hbut & Hwhy).
      cbn [pushed errorTicks set_headerWritten] in Hp, Hbut, Hwhy.
      rewrite length_app in Hbut, Hwhy. cbn [length] in Hbut, Hwhy.
      assert (Hall : (forall k, k < length chunks ->
                         ready (length (pushed s) + 1 + k) = true) ->
                     forall k, k < length (HEADER w :: chunks) ->
                         ready (length (pushed s) + k) = true).
      { intros H [|k] Hk; [now rewrite Nat.add_0_r|].
        replace (length (pushed s) + S k) with (length (pushed s) + 1 + k) by lia.
        apply H. simpl in Hk. lia. }
      exists (HEADER w :: chunks). split; [now rewrite Hp, <- app_assoc|]. split.
      * intros [|k] Hk; [now rewrite Nat.add_0_r|].
        replace (length (pushed s) + S k) with (length (pushed s) + 1 + k) by lia.
        apply Hbut. simpl in Hk. lia.
      * destruct Hwhy as [(He1 & Ht & before & ->)|[(He1 & Hp1 & Hr)|(He1 & Ht & Hne & Hlast)]].
        -- left. split; [exact He1|]. split; [exact Ht|]. now exists (HEADER w :: before).
        -- right. left. split; [exact He1|]. split; [exact Hp1 | now apply Hall].
        -- right. right. split; [exact He1|]. split; [exact Ht|]. split; [discriminate|].
           destruct chunks as [|c chunks]; [contradiction|].
           cbn [length] in *. rewrite <- Hlast. f_equal. lia.
    + intros [= <-]. exists [HEADER w]. cbn [pushed ended errorTicks set_headerWritten length].
      split; [reflexivity|]. split; [intros k Hk; lia|].
      right. right. split; [exact He|]. split; [reflexivity|]. split; [discriminate|].
      now rewrite Nat.add_0_r.
Qed.

End Protocol.

(** The three-module project and a consumer that refuses the header: the
    first call pushes the header and returns on the backpressure. *)
Lemma read_stops_for_a_reason_witness :
  let W := Fixture.world_of Fixture.abc in
  exists s' chunks,
    _read W 10 Nat.odd (constructor W (str "/p/a.js") no_options) = Some s' /\
    pushed s' = [] ++ chunks /\ chunks = [str "HEAD;"].
Proof.
  intros W.
  assert (exists s', _read W 10 Nat.odd (constructor W (str "/p/a.js") no_options) = Some s' /\
                     pushed s' = [str "HEAD;"]) as (s' & Hrun & Hp)
    by (eexists; split; [vm_compute; reflexivity | reflexivity]).
  destruct (@read_stops_for_a_reason W 10 Nat.odd (constructor W (str "/p/a.js") no_options)
              s' eq_refl Hrun) as (chunks & Hc & _).
  exists s', chunks. split; [exact Hrun|]. split; [exact Hc|].
  cbn [pushed constructor app] in Hc. congruence.
Defined.

(** ** A finite project *)

Lemma assoc2_in (A : Type) (k1 k2 : jsstring) (l : list (jsstring * jsstring * A)) (v : A) :
  Fixture.assoc2 k1 k2 l = Some v -> In v (map snd l).
Proof.
  induction l as [|[[a b] c] l IH]; simpl; [discriminate|].
  destruct (jseqb a k1 && jseqb b k2); [intros [= ->]; now left | intros H; right; now apply IH].
Qed.

Section Finite.

Variables (w : World) (entry : jsstring) (U : list jsstring).

Hypothesis resolver_range : forall name opts p, resolve_sync w name opts = Some p -> In p U.

Lemma within_project_length (s : Stream) :
  within_project w entry U s -> length (_files s) <= S (length U).
Proof.
  intros (Hnd & _ & Hin).
  destruct (in_dec (list_eq_dec N.eq_dec) entry (_files s)) as [He|He].
  - apply in_split in He as (l1 & l2 & Hl). rewrite Hl in *.
    apply NoDup_remove in Hnd as (Hnd & Hnot).
    assert (Hle : length (l1 ++ l2) <= length U).
    { apply NoDup_incl_length; [exact Hnd|].
      intros p Hp. destruct (Hin p) as [->|(HU & _)]; [|contradiction|exact HU].
      apply in_app_or in Hp. apply in_or_app. destruct Hp; [left | right; right]; assumption. }
    rewrite length_app in *. cbn [length]. lia.
  - apply Nat.le_le_succ_r, NoDup_incl_length; [exact Hnd|].
    intros p Hp. destruct (Hin p Hp) as [->|(HU & _)]; [contradiction | exact HU].
Qed.

Lemma within_project_step (s s' : Stream) :
  within_project w entry U s -> grows s s' -> registers w s s' ->
  _fileIndex s' <= length (_files s') -> within_project w entry U s'.
Proof.
  intros (Hnd & _ & Hin) (_ & (l & Hl & Hnd' & _) & _) (_ & (l' & Hl' & Hall) & _) Hle.
  split; [auto|]. split; [exact Hle|].
  intros p Hp. rewrite Hl' in Hp. apply in_app_or in Hp as [Hp|Hp]; [now apply Hin|].
  right. rewrite Forall_forall in Hall. destruct (Hall p Hp) as ((name & opts & Ha) & Hc & Hn & _).
  split; [eapply resolver_range; eassumption | now split].
Qed.

Lemma addFile_registers (ready : Consumer) (filePath : jsstring) (s : Stream) :
  registers w s (fst (_addFile w ready filePath s)).
Proof.
  rewrite addFile_state.
  apply (@addFile_related w (registers w)).
  - apply registers_refl.
  - apply registers_trans.
  - apply on_require_registers.
  - intros s0. exact (registers_refl w s0).
  - intros s0 c. exact (registers_refl w s0).
  - intros s0 p. exact (registers_refl w s0).
Qed.

Lemma addFile_within_project (ready : Consumer) (filePath : jsstring) (s : Stream) :
  within_project w entry U s ->
  nth_error (_files s) (_fileIndex s) = Some filePath ->
  within_project w entry U (fst (_addFile w ready filePath s)).
Proof.
  intros Hin Hn.
  assert (Hlt : _fileIndex s < length (_files s)) by (apply nth_error_Some; congruence).
  apply (@within_project_step s); [exact Hin | apply addFile_grows | apply addFile_registers |].
  destruct (addFile_grows w ready filePath s) as ((_ & (l & Hl & _) & _) & _).
  destruct (readFileSync w filePath) as [code|] eqn:Hcode.
  - destruct (@addFile_readable w ready filePath code s Hcode)
      as (s1 & chunk & Heq & (_ & (l1 & Hl1 & _) & _) & Hi1 & _).
    rewrite Heq in *. cbn [push fst _files _fileIndex] in *.
    rewrite Hi1, Hl1, length_app. lia.
  - rewrite addFile_unreadable in * by assumption. cbn [fst nextTick_error _files _fileIndex]. lia.
Qed.

Lemma advance_within_project (s : Stream) :
  within_project w entry U s -> within_project w entry U (advance w s).
Proof.
  intros Hin. unfold advance. destruct (ended s); [exact Hin|].
  destruct (negb (_headerWritten s)); [exact Hin|].
  destruct (nth_error (_files s) (_fileIndex s)) eqn:Hn; [|exact Hin].
  now apply addFile_within_project.
Qed.

Lemma iter_advance_within_project (k : nat) (s : Stream) :
  within_project w entry U s -> within_project w entry U (Nat.iter k (advance w) s).
Proof.
  intros H. induction k as [|k IH]; simpl; [exact H | now apply advance_within_project].
Qed.

Lemma constructor_within_project (options : Options) :
  within_project w entry U (constructor w entry options).
Proof.
  split; [repeat constructor; intros []|]. split; [simpl; lia|].
  intros p [<-|[]]. now left.
Qed.

(** The loop does not run out of fuel when the fuel covers what is left of the
    longest list there can be. *)
Lemma write_files_enough_fuel (fuel : nat) (ready : Consumer) :
  forall s, within_project w entry U s -> S (length U) <= fuel + _fileIndex s ->
            write_files w fuel ready s <> None.
Proof.
  induction fuel as [|fuel IH]; intros s Hin Hfuel; cbn [write_files];
    destruct (nth_error (_files s) (_fileIndex s)) as [filePath|] eqn:Hn; try discriminate.
  - pose proof (within_project_length Hin).
    assert (_fileIndex s < length (_files s)) by (apply nth_error_Some; congruence). lia.
  - pose proof (addFile_within_project ready Hin Hn) as Hin1.
    destruct (readFileSync w filePath) as [code|] eqn:Hcode.
    + destruct (@addFile_readable w ready filePath code s Hcode)
        as (s1 & chunk & Heq & _ & Hi1 & _).
      rewrite Heq in *. unfold push in *. cbn [fst] in Hin1.
      destruct (ready (length (pushed s1))); [|discriminate].
      apply IH; [exact Hin1|]. cbn [_fileIndex]. lia.
    + rewrite addFile_unreadable by assumption. discriminate.
Qed.

Lemma advance_steps_left (s : Stream) :
  within_project w entry U s ->
  (forall p, p = entry \/ (In p U /\ isCore w p = false /\ native w p = false) ->
             readFileSync w p <> None) ->
  ended s = false ->
  steps_left U (advance w s) < steps_left U s.
Proof.
  intros Hin Hreadable He. pose proof (within_project_length Hin) as Hlen.
  unfold steps_left at 2. rewrite He.
  destruct (_headerWritten s) eqn:Hh.
  - destruct (nth_error (_files s) (_fileIndex s)) as [filePath|] eqn:Hn.
    + assert (Hlt : _fileIndex s < length (_files s)) by (apply nth_error_Some; congruence).
      rewrite (advance_file w s He Hh Hn).
      destruct (readFileSync w filePath) as [code|] eqn:Hcode.
      * destruct (@addFile_readable w always filePath code s Hcode)
          as (s1 & chunk & -> & _ & Hi1 & Hh1 & _ & He1 & _).
        unfold steps_left. cbn [push fst ended _headerWritten _fileIndex].
        rewrite He1, He, Hh1, Hh, Hi1. lia.
      * exfalso. apply (Hreadable filePath); [|exact Hcode].
        destruct Hin as (_ & _ & Hin). apply Hin. eapply nth_error_In; eassumption.
    + rewrite (advance_footer w s He Hh Hn). unfold steps_left. simpl. lia.
  - rewrite (advance_header w s He Hh). unfold steps_left. simpl. rewrite He. lia.
Qed.

Lemma steps_left_suffice (m : nat) :
  forall s,
    within_project w entry U s ->
    (forall p, p = entry \/ (In p U /\ isCore w p = false /\ native w p = false) ->
               readFileSync w p <> None) ->
    steps_left U s <= m ->
    ended (Nat.iter m (advance w) s) = true.
Proof.
  induction m as [|m IH]; intros s Hin Hreadable Hm.
  - simpl. unfold steps_left in Hm. destruct (ended s); [reflexivity | lia].
  - rewrite Nat.iter_succ_r. destruct (ended s) eqn:He.
    + rewrite advance_ended by assumption. now rewrite iter_advance_ended.
    + apply IH; [now apply advance_within_project | exact Hreadable |].
      pose proof (advance_steps_left Hin Hreadable He). lia.
Qed.

(** X9.  When the answers of the resolver all lie in a finite list [U]: the
    file list of a run is never longer than [U] plus the entry; a call of
    [_read] with at least that much fuel returns; and if the entry file and
    the paths of [U] that are neither core nor native can be read, then with
    every consumer the run reaches the end within as many demand signals as
    [U] is long, and three. *)
Theorem finite_project_terminates (options : Options) :
  (forall n fuel ready s,
     demands w n fuel ready (constructor w entry options) = Some s ->
     length (_files s) <= S (length U) /\
     forall fuel' ready', S (length U) <= fuel' -> _read w fuel' ready' s <> None) /\
  ((forall p, p = entry \/ (In p U /\ isCore w p = false /\ native w p = false) ->
              readFileSync w p <> None) ->
   forall ready,
   exists s,
     demands w (length U + 3) (length U + 3) ready (constructor w entry options) = Some s /\
     ended s = true).
Proof.
  split.
  - intros n fuel ready s Hrun. apply demands_actions in Hrun as (k & ->).
    pose proof (@iter_advance_within_project k _ (constructor_within_project options)) as Hin.
    split; [now apply within_project_length|].
    intros fuel' ready' Hfuel. unfold _read, _continueProcessing.
    set (s := Nat.iter k (advance w) (constructor w entry options)) in *.
    assert (Hloop : forall s0, within_project w entry U s0 ->
              match write_files w fuel' ready' s0 with
              | Some (s1, true) => Some (push_null (fst (push ready' (FOOTER w) s1)))
              | Some (s1, false) => Some s1
              | None => None
              end <> None).
    { intros s0 Hin0. pose proof (@write_files_enough_fuel fuel' ready' s0 Hin0) as Hw.
      destruct (write_files w fuel' ready' s0) as [[s1 []]|]; try discriminate.
      exfalso. apply Hw; [lia | reflexivity]. }
    destruct (negb (_headerWritten s)); [|now apply Hloop].
    unfold push. cbn [fst snd].
    destruct (ready' _); [|discriminate]. now apply Hloop.
  - intros Hreadable ready.
    exists (Nat.iter (length U + 3) (advance w) (constructor w entry options)).
    assert (Hend : ended (Nat.iter (length U + 3) (advance w) (constructor w entry options)) = true).
    { apply steps_left_suffice; [apply constructor_within_project | exact Hreadable |].
      unfold steps_left. simpl. lia. }
    split; [|exact Hend]. apply demands_reach_end; [exact Hend | lia | lia].
Qed.

End Finite.

(** The three-module project: its resolver has four answers, so that seven
    demand signals get any consumer to the end. *)
Lemma finite_project_terminates_witness :
  let W := Fixture.world_of Fixture.abc in
  exists s,
    demands W 7 7 (fun _ => false) (constructor W (str "/p/a.js") no_options) = Some s /\
    ended s = true.
Proof.
  intros W.
  assert (Hrange : forall name opts p,
            resolve_sync W name opts = Some p ->
            In p (map snd (Fixture.resolutions Fixture.abc))).
  { intros name opts p H. eapply assoc2_in. exact H. }
  assert (Hreadable : forall p,
            p = str "/p/a.js" \/
            (In p (map snd (Fixture.resolutions Fixture.abc)) /\
             isCore W p = false /\ native W p = false) ->
            readFileSync W p <> None).
  { intros p [->|(Hin & Hcore & _)]; [discriminate|].
    simpl in Hin. destruct Hin as [<-|[<-|[<-|[<-|[]]]]]; discriminate. }
  exact (proj2 (@finite_project_terminates W (str "/p/a.js")
                  (map snd (Fixture.resolutions Fixture.abc)) Hrange no_options)
           Hreadable (fun _ => false)).
Defined.

(** ** What [requireRegex] takes for a call site *)

(** *** One step of the matcher at a time *)

Lemma matcher_seq (r1 r2 : regex) (x : MatchState) (c : Continuation) :
  matcher (Seq r1 r2) x c = matcher r1 x (fun y => matcher r2 y c).
Proof. reflexivity. Qed.

Lemma lit_sound (a : jsstring) :
  forall (x : MatchState) (c : Continuation) (z : MatchState),
    matcher (lit a) x c = Some z ->
    exists tl, rest x = a ++ tl /\
               c (mkState (endIndex x + length a) tl (captures x)) = Some z.
Proof.
  induction a as [|ch a IH]; intros x c z.
  - cbn [lit fold_right matcher]. intros H. exists (rest x). split; [reflexivity|].
    destruct x. cbn in *. now rewrite Nat.add_0_r.
  - change (lit (ch :: a)) with (Seq (Char (N.eqb ch)) (lit a)). cbn [matcher].
    destruct (rest x) as [|d tl] eqn:Hr; [discriminate|].
    destruct (N.eqb_spec ch d) as [<-|]; [|discriminate].
    intros H. apply IH in H as (tl' & Htl & Hc). cbn [rest endIndex captures] in *.
    exists tl'. split; [now rewrite Htl|].
    cbn [length]. now rewrite <- Nat.add_succ_comm.
Qed.

Lemma greedy_chars_sound (p : char -> bool) (c : Continuation) (caps : list (nat * jsstring)) :
  forall (s : jsstring) (i : nat) (z : MatchState),
    greedy_chars p c i s caps = Some z ->
    exists ws tl, s = ws ++ tl /\ forallb p ws = true /\
                  c (mkState (i + length ws) tl caps) = Some z.
Proof.
  induction s as [|ch s IH]; intros i z; cbn [greedy_chars].
  - intros H. exists [], []. rewrite Nat.add_0_r. auto.
  - assert (Hstop : c (mkState i (ch :: s) caps) = Some z ->
                    exists ws tl, ch :: s = ws ++ tl /\ forallb p ws = true /\
                                  c (mkState (i + length ws) tl caps) = Some z).
    { intros H. exists [], (ch :: s). rewrite Nat.add_0_r. auto. }
    destruct (p ch) eqn:Hp; [|exact Hstop].
    destruct (greedy_chars p c (S i) s caps) as [z'|] eqn:Hg; [|exact Hstop].
    intros [= <-]. apply IH in Hg as (ws & tl & -> & Hws & Hc).
    exists (ch :: ws), tl. cbn [forallb length]. rewrite Hp, Hws.
    repeat split. now rewrite <- Nat.add_succ_comm.
Qed.

Lemma star_space_sound (x : MatchState) (c : Continuation) (z : MatchState) :
  matcher (Star space) x c = Some z ->
  exists ws tl, rest x = ws ++ tl /\ forallb is_space ws = true /\
                c (mkState (endIndex x + length ws) tl (captures x)) = Some z.
Proof.
  destruct x as [i s caps]. unfold space. rewrite star_chars. apply greedy_chars_sound.
Qed.

Lemma path_unit_sound (q : char) (x : MatchState) (c : Continuation) (z : MatchState) :
  capture 1 (captures x) = Some [q] ->
  matcher path_unit x c = Some z ->
  exists u tl, rest x = u ++ tl /\ u <> [] /\
    (forall path, well_escaped q path = true -> well_escaped q (u ++ path) = true) /\
    c (mkState (endIndex x + length u) tl (captures x)) = Some z.
Proof.
  intros Hcap. unfold path_unit. cbn [matcher].
  rewrite Hcap.
  assert (Hpair : matcher (lit [BACKSLASH; BACKSLASH]) x c = Some z ->
    exists u tl, rest x = u ++ tl /\ u <> [] /\
      (forall path, well_escaped q path = true -> well_escaped q (u ++ path) = true) /\
      c (mkState (endIndex x + length u) tl (captures x)) = Some z).
  { intros H. apply lit_sound in H as (tl & Hr & Hc).
    exists [BACKSLASH; BACKSLASH], tl. split; [exact Hr|]. split; [discriminate|].
    split; [|exact Hc]. intros path Hpath. cbn. exact Hpath. }
  destruct (strip_prefix [q] (rest x)) as [tl0|] eqn:Hq; [exact Hpair|].
  unfold none_of at 1. cbn [matcher rest existsb].
  destruct (rest x) as [|ch tl] eqn:Hr; [exact Hpair|].
  destruct (negb (N.eqb ch BACKSLASH || false)) eqn:Hb; [|exact Hpair].
  destruct (c _) as [z1|] eqn:Hc; [|exact Hpair].
  intros [= <-].
  cbn [strip_prefix] in Hq.
  exists [ch], tl. split; [reflexivity|]. split; [discriminate|]. split.
  - intros path Hpath. cbn [app well_escaped].
    rewrite orb_false_r in Hb. apply negb_true_iff in Hb. rewrite Hb.
    destruct (N.eqb q ch) eqn:Hqc; [discriminate|].
    rewrite N.eqb_sym, Hqc. exact Hpath.
  - cbn [length]. now rewrite Nat.add_1_r.
Qed.

Lemma path_units_sound (q : char) (c : Continuation) (fuel : nat) :
  forall (x : MatchState) (z : MatchState),
    capture 1 (captures x) = Some [q] ->
    repeat_matcher (matcher path_unit) c fuel x = Some z ->
    exists path tl, rest x = path ++ tl /\ well_escaped q path = true /\
      c (mkState (endIndex x + length path) tl (captures x)) = Some z.
Proof.
  induction fuel as [|fuel IH]; intros x z Hcap; cbn [repeat_matcher].
  - intros H. exists [], (rest x). rewrite Nat.add_0_r. destruct x. auto.
  - assert (Hstop : c x = Some z ->
      exists path tl, rest x = path ++ tl /\ well_escaped q path = true /\
        c (mkState (endIndex x + length path) tl (captures x)) = Some z).
    { intros H. exists [], (rest x). rewrite Nat.add_0_r. destruct x. auto. }
    destruct (matcher path_unit x _) as [z'|] eqn:Hm; [|exact Hstop].
    intros [= <-].
    apply (@path_unit_sound q) in Hm as (u & tl & Hr & Hu & Hesc & Hc); [|exact Hcap].
    destruct (progress x _); [|discriminate].
    apply IH in Hc as (path & tl' & Hr' & Hpath & Hc); [|exact Hcap].
    cbn [rest endIndex captures] in *.
    exists (u ++ path), tl'. rewrite Hr, Hr', <- app_assoc. split; [reflexivity|].
    split; [now apply Hesc|].
    now rewrite length_app, Nat.add_assoc.
Qed.


Lemma group_char_sound (n : nat) (p : char -> bool) (x : MatchState) (c : Continuation)
    (z : MatchState) :
  matcher (Group n (Char p)) x c = Some z ->
  exists ch tl, rest x = ch :: tl /\ p ch = true /\
    c (mkState (S (endIndex x)) tl ((n, [ch]) :: captures x)) = Some z.
Proof.
  cbn [matcher]. destruct (rest x) as [|ch tl]; [discriminate|].
  destruct (p ch) eqn:Hp; [|discriminate].
  cbn [endIndex rest captures]. replace (S _ - _) with 1 by lia. cbn [firstn].
  intros H. now exists ch, tl.
Qed.

Lemma group_path_sound (q : char) (x : MatchState) (c : Continuation) (z : MatchState) :
  capture 1 (captures x) = Some [q] ->
  matcher (Group 2 (Star path_unit)) x c = Some z ->
  exists path tl, rest x = path ++ tl /\ well_escaped q path = true /\
    c (mkState (endIndex x + length path) tl ((2, path) :: captures x)) = Some z.
Proof.
  intros Hcap. cbn [matcher]. intros H.
  apply (@path_units_sound q) in H as (path & tl & Hr & Hpath & H); [|exact Hcap].
  cbn [endIndex rest captures] in H.
  exists path, tl. split; [exact Hr|]. split; [exact Hpath|].
  rewrite Hr in H. replace (_ + _ - _) with (length path + 0) in H by lia.
  now rewrite firstn_app_2, app_nil_r in H.
Qed.

Lemma backref_sound (n : nat) (t : jsstring) (x : MatchState) (c : Continuation)
    (z : MatchState) :
  capture n (captures x) = Some t ->
  matcher (Backref n) x c = Some z ->
  exists tl, rest x = t ++ tl /\ c (mkState (endIndex x + length t) tl (captures x)) = Some z.
Proof.
  intros Hcap. cbn [matcher]. rewrite Hcap.
  destruct (strip_prefix t (rest x)) as [tl|] eqn:Hp; [|discriminate].
  intros H. exists tl. split; [now apply strip_prefix_some|exact H].
Qed.

Lemma require_match_shape (i : nat) (s : jsstring) (y : MatchState) :
  matcher requireRegex (mkState i s []) Some = Some y ->
  exists ws1 ws2 q path ws3 after,
    s = call_site_text ws1 ws2 q path ws3 ++ after /\
    forallb is_space ws1 = true /\ forallb is_space ws2 = true /\
    forallb is_space ws3 = true /\
    (q = DQUOTE \/ q = SQUOTE) /\ well_escaped q path = true /\
    endIndex y = i + length (call_site_text ws1 ws2 q path ws3) /\
    rest y = after /\
    captures y = [(2, path); (1, [q])].
Proof.
  unfold requireRegex. intros H.
  rewrite matcher_seq in H.
  apply lit_sound in H as (t1 & H1 & H). cbn [rest endIndex captures] in *.
  rewrite matcher_seq in H.
  apply star_space_sound in H as (ws1 & t2 & H2 & Hws1 & H). cbn [rest endIndex captures] in *.
  rewrite matcher_seq in H.
  apply lit_sound in H as (t3 & H3 & H). cbn [rest endIndex captures] in *.
  rewrite matcher_seq in H.
  apply star_space_sound in H as (ws2 & t4 & H4 & Hws2 & H). cbn [rest endIndex captures] in *.
  rewrite matcher_seq in H.
  apply group_char_sound in H as (q & t5 & H5 & Hq & H). cbn [rest endIndex captures] in *.
  rewrite matcher_seq in H.
  change (Star (Alt _ _)) with (Star path_unit) in H.
  apply (@group_path_sound q) in H as (path & t6 & H6 & Hpath & H); [|reflexivity].
  cbn [rest endIndex captures] in *.
  rewrite matcher_seq in H.
  apply (@backref_sound 1 [q]) in H as (t7 & H7 & H); [|reflexivity].
  cbn [rest endIndex captures] in *.
  rewrite matcher_seq in H.
  apply star_space_sound in H as (ws3 & t8 & H8 & Hws3 & H). cbn [rest endIndex captures] in *.
  apply lit_sound in H as (t9 & H9 & H). cbn [rest endIndex captures] in *.
  injection H as <-. cbn [endIndex rest captures].
  exists ws1, ws2, q, path, ws3, t9.
  subst s t1 t2 t3 t4 t5 t6 t7 t8.
  split; [unfold call_site_text; now rewrite <- !app_assoc|].
  repeat (split; [assumption|]).
  split.
  { cbn [existsb] in Hq. rewrite orb_false_r in Hq. apply orb_true_iff in Hq.
    destruct Hq as [Hq|Hq]; apply N.eqb_eq in Hq; auto. }
  split; [assumption|].
  split; [|split; reflexivity].
  unfold call_site_text. rewrite !length_app.
  change (length (str "require")) with 7. change (length (str "(")) with 1.
  change (length (str ")")) with 1. cbn [length]. lia.
Qed.

(** *** Every match is a literal call *)

Lemma exec_from_split (r : regex) :
  forall (s : jsstring) (i : nat) (m : Match),
    exec_from r i s = Some m ->
    exists before s' y,
      s = before ++ s' /\ m_index m = i + length before /\
      matcher r (mkState (m_index m) s' []) Some = Some y /\
      m_text m = firstn (endIndex y - m_index m) s' /\ m_groups m = captures y.
Proof.
  induction s as [|ch s IH]; intros i m; rewrite exec_from_unfold;
    destruct (matcher r _ Some) as [y|] eqn:Hm.
  - intros [= <-]. exists [], [], y. cbn. rewrite Nat.add_0_r. auto.
  - discriminate.
  - intros [= <-]. exists [], (ch :: s), y. cbn. rewrite Nat.add_0_r. auto.
  - intros H. apply IH in H as (before & s' & y & -> & Hi & H).
    exists (ch :: before), s', y. cbn [length app]. split; [reflexivity|].
    split; [lia | exact H].
Qed.

Lemma match_all_split (r : regex) (fuel : nat) :
  forall (i : nat) (s : jsstring) (m : Match),
    In m (match_all fuel r i s) ->
    exists before s' y,
      s = before ++ s' /\ m_index m = i + length before /\
      matcher r (mkState (m_index m) s' []) Some = Some y /\
      m_text m = firstn (endIndex y - m_index m) s' /\ m_groups m = captures y.
Proof.
  induction fuel as [|fuel IH]; intros i s m; cbn [match_all]; [intros []|].
  destruct (exec_from r i s) as [m0|] eqn:E; [|intros []].
  pose proof (@exec_from_split r s i m0 E) as (b0 & s0 & y0 & Hs & Hi & Hm0 & Ht & Hg).
  assert (Hskip : skipn (m_index m0 - i) s = s0).
  { rewrite Hs. replace (m_index m0 - i) with (length b0) by lia.
    now rewrite skipn_app, skipn_all, Nat.sub_diag. }
  rewrite Hskip.
  assert (Hhere : m0 = m -> exists before s' y,
      s = before ++ s' /\ m_index m = i + length before /\
      matcher r (mkState (m_index m) s' []) Some = Some y /\
      m_text m = firstn (endIndex y - m_index m) s' /\ m_groups m = captures y).
  { intros <-. now exists b0, s0, y0. }
  destruct (length (m_text m0)) as [|n] eqn:Hlen.
  - destruct s0 as [|ch tl]; (intros [Heq|Hin]; [now apply Hhere| ]); [destruct Hin|].
    apply IH in Hin as (before & s' & y & -> & Hi' & H).
    exists (b0 ++ ch :: before), s', y. rewrite Hs, <- app_assoc. split; [reflexivity|].
    rewrite length_app. cbn [length]. split; [lia | exact H].
  - intros [Heq|Hin]; [now apply Hhere|].
    apply IH in Hin as (before & s' & y & Hs' & Hi' & H).
    exists (b0 ++ firstn (S n) s0 ++ before), s', y.
    split.
    { rewrite Hs, <- !app_assoc, <- Hs'. now rewrite firstn_skipn. }
    split; [|exact H].
    rewrite !length_app, length_firstn.
    assert (S n <= length s0).
    { rewrite <- Hlen, Ht, length_firstn. lia. }
    lia.
Qed.

(** X10.  Every match of [requireRegex] in a text, that is every call site the
    replacement function of [_addFile] is called on, is a literal call: the
    text splits into what is before the match, the match and what is after
    it; the match is the word require, blanks, an opening parenthesis, blanks,
    a quote, a path, the same quote, blanks and a closing parenthesis; group 1
    is the quote, a double quote or an apostrophe, and group 2 the path, in
    which that quote stands nowhere and backslashes come in pairs. *)
Theorem call_sites_are_literal (code : jsstring) (m : Match) :
  In m (matches requireRegex code) ->
  exists before ws1 ws2 q path ws3 after,
    code = before ++ call_site_text ws1 ws2 q path ws3 ++ after /\
    m_index m = length before /\
    m_text m = call_site_text ws1 ws2 q path ws3 /\
    group 1 m = [q] /\ group 2 m = path /\
    (q = DQUOTE \/ q = SQUOTE) /\
    forallb is_space ws1 = true /\ forallb is_space ws2 = true /\
    forallb is_space ws3 = true /\
    well_escaped q path = true.
Proof.
  intros Hin. apply match_all_split in Hin as (before & s' & y & Hs & Hi & Hm & Ht & Hg).
  apply require_match_shape in Hm
    as (ws1 & ws2 & q & path & ws3 & after & Hs' & H1 & H2 & H3 & Hq & Hp & He & _ & Hc).
  exists before, ws1, ws2, q, path, ws3, after.
  split; [now rewrite Hs, Hs'|]. split; [exact Hi|].
  split.
  { rewrite Ht, He, Hs', Nat.add_comm, Nat.add_sub.
    rewrite <- (Nat.add_0_r (length _)), firstn_app_2. cbn [firstn]. apply app_nil_r. }
  unfold group. rewrite Hg, Hc. cbn [capture Nat.eqb]. auto 10.
Qed.

Lemma call_sites_are_literal_witness :
  let code := str "var b = require ( './b' );" in
  let m := mkMatch 8 (str "require ( './b' )") [(2, str "./b"); (1, [SQUOTE])] in
  In m (matches requireRegex code) /\
  exists before ws1 ws2 q path ws3 after,
    code = before ++ call_site_text ws1 ws2 q path ws3 ++ after /\
    m_index m = length before /\
    m_text m = call_site_text ws1 ws2 q path ws3 /\
    group 1 m = [q] /\ group 2 m = path /\
    (q = DQUOTE \/ q = SQUOTE) /\
    forallb is_space ws1 = true /\ forallb is_space ws2 = true /\
    forallb is_space ws3 = true /\
    well_escaped q path = true.
Proof.
  intros code m.
  assert (H : In m (matches requireRegex code)) by (vm_compute; left; reflexivity).
  split; [exact H | exact (call_sites_are_literal code m H)].
Defined.

(** *** A literal call is matched *)

Lemma lit_complete (a : jsstring) :
  forall (i : nat) (tl : jsstring) (caps : list (nat * jsstring)) (c : Continuation),
    matcher (lit a) (mkState i (a ++ tl) caps) c = c (mkState (i + length a) tl caps).
Proof.
  induction a as [|ch a IH]; intros i tl caps c.
  - cbn [lit fold_right matcher app length]. now rewrite Nat.add_0_r.
  - change (lit (ch :: a)) with (Seq (Char (N.eqb ch)) (lit a)).
    cbn [matcher rest app endIndex captures]. rewrite N.eqb_refl, IH.
    cbn [length]. now rewrite Nat.add_succ_comm.
Qed.

Lemma greedy_chars_complete (p : char -> bool) (c : Continuation) (caps : list (nat * jsstring))
    (tl : jsstring) (z : MatchState) :
  stops p tl ->
  forall (ws : jsstring) (i : nat),
    forallb p ws = true ->
    c (mkState (i + length ws) tl caps) = Some z ->
    greedy_chars p c i (ws ++ tl) caps = Some z.
Proof.
  intros Hstop. induction ws as [|ch ws IH]; intros i Hws Hc.
  - cbn [app length] in *. rewrite Nat.add_0_r in Hc.
    destruct tl as [|ch tl']; cbn [greedy_chars]; [exact Hc|].
    cbn [stops] in Hstop. now rewrite Hstop.
  - cbn [forallb] in Hws. apply andb_true_iff in Hws as [Hch Hws].
    cbn [app greedy_chars]. rewrite Hch.
    rewrite (IH (S i) Hws); [reflexivity|].
    cbn [length] in Hc. now rewrite Nat.add_succ_comm.
Qed.

Lemma star_space_complete (i : nat) (ws tl : jsstring) (caps : list (nat * jsstring))
    (c : Continuation) (z : MatchState) :
  stops is_space tl -> forallb is_space ws = true ->
  c (mkState (i + length ws) tl caps) = Some z ->
  matcher (Star space) (mkState i (ws ++ tl) caps) c = Some z.
Proof.
  intros. unfold space. rewrite star_chars. now apply greedy_chars_complete.
Qed.

Lemma path_unit_stops (q : char) (i : nat) (tl : jsstring) (caps : list (nat * jsstring))
    (c : Continuation) :
  N.eqb q BACKSLASH = false -> capture 1 caps = Some [q] ->
  matcher path_unit (mkState i (q :: tl) caps) c = None.
Proof.
  intros Hq Hcap. unfold path_unit. cbn [matcher rest captures].
  rewrite Hcap. cbn [strip_prefix]. rewrite N.eqb_refl.
  change (lit [BACKSLASH; BACKSLASH])
    with (Seq (Char (N.eqb BACKSLASH)) (lit [BACKSLASH])).
  cbn [matcher rest]. now rewrite N.eqb_sym, Hq.
Qed.

Lemma path_units_complete (q : char) (c : Continuation) (caps : list (nat * jsstring))
    (tl : jsstring) (z : MatchState) :
  N.eqb q BACKSLASH = false -> capture 1 caps = Some [q] ->
  forall (fuel : nat) (path : jsstring) (i : nat),
    length path < fuel ->
    well_escaped q path = true ->
    c (mkState (i + length path) (q :: tl) caps) = Some z ->
    repeat_matcher (matcher path_unit) c fuel (mkState i (path ++ q :: tl) caps) = Some z.
Proof.
  intros Hq Hcap. induction fuel as [|fuel IH]; intros path i Hlen Hesc Hc; [lia|].
  cbn [repeat_matcher].
  destruct path as [|ch path].
  - cbn [app length] in *. rewrite Nat.add_0_r in Hc.
    now rewrite path_unit_stops.
  - cbn [well_escaped] in Hesc. cbn [app].
    destruct (N.eqb ch BACKSLASH) eqn:Hch.
    + destruct path as [|d path]; [discriminate|].
      apply andb_true_iff in Hesc as [Hd Hesc].
      apply N.eqb_eq in Hch, Hd. subst ch d.
      unfold path_unit at 1. cbn [matcher rest captures].
      rewrite Hcap. cbn [strip_prefix]. rewrite Hq.
      unfold none_of at 1. cbn [matcher rest existsb]. rewrite N.eqb_refl. cbn [orb negb].
      rewrite (@lit_complete [BACKSLASH; BACKSLASH] i (path ++ q :: tl) caps).
      unfold progress. cbn [endIndex length].
      replace (i + 2 =? i) with false by (symmetry; apply Nat.eqb_neq; lia). cbn [negb].
      rewrite IH; [reflexivity | cbn [length] in Hlen; lia | exact Hesc |].
      cbn [length] in Hc. rewrite <- Hc. f_equal. f_equal. lia.
    + apply andb_true_iff in Hesc as [Hne Hesc]. apply negb_true_iff in Hne.
      unfold path_unit at 1. cbn [matcher rest captures].
      rewrite Hcap. cbn [strip_prefix]. rewrite N.eqb_sym, Hne.
      unfold none_of at 1. cbn [matcher rest existsb endIndex captures].
      rewrite Hch. cbn [orb negb].
      rewrite progress_step.
      rewrite IH; [reflexivity | cbn [length] in Hlen; lia | exact Hesc |].
      cbn [length] in Hc. now rewrite Nat.add_succ_comm.
Qed.

Lemma matcher_group (n : nat) (r : regex) (x : MatchState) (c : Continuation) :
  matcher (Group n r) x c =
    matcher r x (fun y =>
      c (mkState (endIndex y) (rest y)
           ((n, firstn (endIndex y - endIndex x) (rest x)) :: captures y))).
Proof. reflexivity. Qed.

Lemma matcher_star (r : regex) (x : MatchState) (c : Continuation) :
  matcher (Star r) x c = repeat_matcher (matcher r) c (S (length (rest x))) x.
Proof. reflexivity. Qed.

Lemma matcher_char (p : char -> bool) (i : nat) (ch : char) (tl : jsstring)
    (caps : list (nat * jsstring)) (c : Continuation) :
  matcher (Char p) (mkState i (ch :: tl) caps) c =
    if p ch then c (mkState (S i) tl caps) else None.
Proof. reflexivity. Qed.

Lemma matcher_backref (n : nat) (t : jsstring) (i : nat) (tl : jsstring)
    (caps : list (nat * jsstring)) (c : Continuation) :
  capture n caps = Some t ->
  matcher (Backref n) (mkState i (t ++ tl) caps) c = c (mkState (i + length t) tl caps).
Proof.
  intros Hcap. cbn [matcher captures rest endIndex]. rewrite Hcap.
  replace (strip_prefix t (t ++ tl)) with (Some tl); [reflexivity|].
  clear Hcap. induction t as [|ch t IH]; cbn [strip_prefix app]; [reflexivity|].
  now rewrite N.eqb_refl.
Qed.

Lemma require_matcher_complete (i : nat) (ws1 ws2 : jsstring) (q : char)
    (path ws3 after : jsstring) :
  forallb is_space ws1 = true -> forallb is_space ws2 = true ->
  forallb is_space ws3 = true ->
  q = DQUOTE \/ q = SQUOTE -> well_escaped q path = true ->
  matcher requireRegex (mkState i (call_site_text ws1 ws2 q path ws3 ++ after) []) Some =
    Some (mkState (i + length (call_site_text ws1 ws2 q path ws3)) after
            [(2, path); (1, [q])]).
Proof.
  intros H1 H2 H3 Hq Hpath.
  assert (Hqs : is_space q = false) by (destruct Hq; subst q; reflexivity).
  assert (Hqb : N.eqb q BACKSLASH = false) by (destruct Hq; subst q; reflexivity).
  assert (Hqq : existsb (N.eqb q) [DQUOTE; SQUOTE] = true)
    by (destruct Hq; subst q; reflexivity).
  unfold requireRegex, call_site_text. rewrite <- !app_assoc.
  rewrite matcher_seq, lit_complete.
  rewrite matcher_seq.
  apply star_space_complete; [reflexivity | exact H1 |].
  rewrite matcher_seq, lit_complete.
  rewrite matcher_seq.
  apply star_space_complete; [exact Hqs | exact H2 |].
  rewrite matcher_seq, matcher_group.
  unfold one_of at 1. cbn [app]. rewrite matcher_char, Hqq.
  cbn [endIndex rest captures].
  replace (S _ - _) with 1 by lia. cbn [firstn].
  rewrite matcher_seq, matcher_group, matcher_star.
  change (Alt _ _) with path_unit.
  apply (@path_units_complete q); [exact Hqb | reflexivity | | exact Hpath |].
  { cbn [rest]. rewrite length_app. cbn [length]. lia. }
  cbn [endIndex rest captures].
  replace (_ - _) with (length path + 0) by lia.
  rewrite firstn_app_2, app_nil_r.
  rewrite matcher_seq.
  change (q :: ws3 ++ str ")" ++ after) with ([q] ++ ws3 ++ str ")" ++ after).
  rewrite (@matcher_backref 1 [q]) by reflexivity.
  apply star_space_complete; [reflexivity | exact H3 |].
  rewrite (@lit_complete (str ")")). f_equal. f_equal.
  repeat (rewrite length_app; cbn [length app]).
  change (length (str "require")) with 7. change (length (str "(")) with 1.
  change (length (str ")")) with 1. lia.
Qed.

(** X11.  A literal call at the head of a text is matched there, whatever
    follows it: with blanks where blanks may stand, a double quote or an
    apostrophe on both sides of the path, and a path that holds neither that
    quote nor a backslash that is not doubled, the first match of
    [requireRegex] starts at index 0, is the whole call, and has the quote as
    group 1 and the path as group 2. *)
Theorem literal_call_is_matched (ws1 ws2 : jsstring) (q : char) (path ws3 after : jsstring) :
  forallb is_space ws1 = true -> forallb is_space ws2 = true ->
  forallb is_space ws3 = true ->
  q = DQUOTE \/ q = SQUOTE -> well_escaped q path = true ->
  exec requireRegex (call_site_text ws1 ws2 q path ws3 ++ after) =
    Some (mkMatch 0 (call_site_text ws1 ws2 q path ws3) [(2, path); (1, [q])]).
Proof.
  intros H1 H2 H3 Hq Hpath. unfold exec. rewrite exec_from_unfold.
  rewrite require_matcher_complete by assumption.
  cbn [endIndex captures]. f_equal. f_equal.
  rewrite Nat.sub_0_r. cbn [Nat.add].
  rewrite <- (Nat.add_0_r (length _)), firstn_app_2. cbn [firstn]. apply app_nil_r.
Qed.

Lemma literal_call_is_matched_witness :
  let path := str ".\\lib\\b" in
  forallb is_space (str " ") = true /\ well_escaped DQUOTE path = true /\
  exec requireRegex (call_site_text (str " ") [] DQUOTE path (str " ") ++ str ".x;") =
    Some (mkMatch 0 (call_site_text (str " ") [] DQUOTE path (str " "))
            [(2, path); (1, [DQUOTE])]).
Proof.
  intros path. split; [reflexivity|]. split; [reflexivity|].
  apply (@literal_call_is_matched (str " ") [] DQUOTE path (str " ") (str ".x;"));
    [reflexivity | reflexivity | reflexivity | left; reflexivity | reflexivity].
Defined.

(** ** Un-escaping the module path *)

Lemma doubled_tail (c : char) (s : jsstring) : doubled (c :: s) = false -> doubled s = false.
Proof.
  destruct s as [|d s]; [reflexivity|]. cbn [doubled].
  intros H. now apply orb_false_iff in H.
Qed.

Lemma strip_pair_doubled (s after : jsstring) :
  strip_prefix [BACKSLASH; BACKSLASH] s = Some after -> doubled s = true.
Proof.
  intros H. apply strip_prefix_some in H. subst s. cbn [app doubled].
  now rewrite !N.eqb_refl.
Qed.

Lemma unescape_nothing (s : jsstring) :
  forall before_rev,
    doubled s = false ->
    replace_first_from before_rev [BACKSLASH; BACKSLASH] [BACKSLASH] s = rev before_rev ++ s.
Proof.
  induction s as [|c s IH]; intros before_rev Hd.
  - cbn. now rewrite app_nil_r.
  - rewrite replace_first_from_cons.
    destruct (strip_prefix [BACKSLASH; BACKSLASH] (c :: s)) as [after|] eqn:Hp.
    + apply strip_pair_doubled in Hp. congruence.
    + rewrite IH by (eapply doubled_tail; eassumption).
      cbn [rev]. now rewrite <- app_assoc.
Qed.

Lemma doubled_head (a b : jsstring) (after : jsstring) (c : char) :
  strip_prefix [BACKSLASH; BACKSLASH] (c :: a ++ BACKSLASH :: b) = Some after ->
  doubled (c :: a ++ [BACKSLASH]) = true.
Proof.
  intros H. apply strip_prefix_some in H.
  destruct a as [|d a]; cbn [app] in *.
  - injection H as -> _. cbn [doubled]. now rewrite !N.eqb_refl.
  - injection H as -> -> _. cbn [doubled]. now rewrite !N.eqb_refl.
Qed.

Lemma unescape_first (b : jsstring) (a : jsstring) :
  forall before_rev,
    doubled (a ++ [BACKSLASH]) = false ->
    replace_first_from before_rev [BACKSLASH; BACKSLASH] [BACKSLASH]
      (a ++ BACKSLASH :: BACKSLASH :: b) = rev before_rev ++ a ++ BACKSLASH :: b.
Proof.
  induction a as [|c a IH]; intros before_rev Hd.
  - reflexivity.
  - cbn [app]. rewrite replace_first_from_cons.
    destruct (strip_prefix _ (c :: a ++ BACKSLASH :: BACKSLASH :: b)) as [after|] eqn:Hp.
    + apply doubled_head in Hp. cbn [app] in Hd. congruence.
    + rewrite IH by (eapply doubled_tail; exact Hd).
      cbn [rev]. now rewrite <- app_assoc.
Qed.

(** X12.  Line 162 un-escapes one doubled backslash only, the first: a path
    [a] without a doubled backslash is left as it is, and in a path that goes
    on after [a] with a doubled backslash, that one becomes a single backslash
    while the rest [b] of the path, further doubled backslashes included, is
    left as it is. *)
Theorem unescape_first_only (a b : jsstring) :
  doubled (a ++ [BACKSLASH]) = false ->
  replace_first [BACKSLASH; BACKSLASH] [BACKSLASH] a = a /\
  replace_first [BACKSLASH; BACKSLASH] [BACKSLASH] (a ++ BACKSLASH :: BACKSLASH :: b) =
    a ++ BACKSLASH :: b.
Proof.
  intros Hd. unfold replace_first. split.
  - apply (@unescape_nothing a []).
    clear b. induction a as [|c a IH]; [reflexivity|].
    cbn [app] in Hd. pose proof (doubled_tail _ _ Hd) as Ht.
    destruct a as [|d a]; [reflexivity|].
    cbn [app doubled] in *. apply orb_false_iff in Hd as [Hcd _].
    rewrite Hcd. now apply IH.
  - now apply (@unescape_first b a []).
Qed.

Lemma unescape_first_only_witness :
  doubled (str "." ++ [BACKSLASH]) = false /\
  replace_first [BACKSLASH; BACKSLASH] [BACKSLASH] (str "." ++ str "\\lib\\b") =
    str ".\lib\\b".
Proof.
  split; [reflexivity|].
  exact (proj2 (@unescape_first_only (str ".") (str "lib\\b") eq_refl)).
Defined.
